(** * cf-bigip-ctlr, package f5router: the configuration driver and the
      route aggregator

    A shallow embedding of [f5router/driver.go] (the supervisor of the
    [bigipconfigdriver.py] child process) and of the parts of the
    aggregator that [f5router/f5router_test.go] exercises.

    - [Driver.Run] and the goroutine [runBigIPDriver] are two threads that
      meet on the channels [pidCh] and [done]; they are embedded as a
      deterministic step function over a state holding one program counter
      per thread, driven by an arbitrary schedule.  Everything the
      operating system decides (does the pipe open, does the child start,
      what does it print, how does it end, which signal arrives) is read
      from an environment record.
    - The comparators, the constructor [NewF5Router] and [RouteUpdate] live
      in [f5router.go], which is not part of the sources at hand; they are
      modelled from the specification and marked as such. *)

From Stdlib Require Import ZArith Lia Bool.
From Stdlib Require Import Ascii.
From Stdlib Require String.
From Stdlib Require Import DecimalString.
From stdpp Require Import base option list sorting strings gmap.

Local Open Scope Z_scope.

(* ================================================================== *)
(** * Go values used by the package *)
(* ================================================================== *)

(** A Go [error] value, by its message. [None : option error] is [nil]. *)
Definition error := string.

(** An [os.Signal] interface value: its number and what [String()]
    returns. *)
Record Signal := mkSignal { signo : Z; Signal_String : string }.

(** [strings.Contains(s, substr)]. *)
Fixpoint Contains (s substr : string) : bool :=
  if Stdlib.Strings.String.prefix substr s then true
  else match s with
       | EmptyString => false
       | String _ s' => Contains s' substr
       end.

(** Decimal rendering of an [int], the [%d] verb of [fmt.Sprintf]. *)
Definition itoa (n : Z) : string := NilZero.string_of_int (Z.to_int n).

(* ================================================================== *)
(** * The logger *)
(* ================================================================== *)

(** The five methods of [logger.Logger] that [driver.go] calls. *)
Inductive Level := DebugLevel | InfoLevel | WarnLevel | ErrorLevel | FatalLevel.

(** [zap.Error], [zap.Int] and [zap.String] fields. *)
Inductive Field :=
| ZError (err : error)
| ZInt (key : string) (val : Z)
| ZString (key : string) (val : string).

Record LogEntry := mkLog { level : Level; message : string; fields : list Field }.

#[global] Instance Level_eq_dec : EqDecision Level.
Proof. solve_decision. Defined.
#[global] Instance Signal_eq_dec : EqDecision Signal.
Proof. solve_decision. Defined.
#[global] Instance Field_eq_dec : EqDecision Field.
Proof. solve_decision. Defined.
#[global] Instance LogEntry_eq_dec : EqDecision LogEntry.
Proof. solve_decision. Defined.

(* ================================================================== *)
(** * driver.go *)
(* ================================================================== *)

Definition DefaultCmd : string := "python/bigipconfigdriver.py".

Definition Logger := string.

(** [type Driver struct].  The fields [global] and [bigIP] are never read
    or written in [driver.go] and [NewDriver] leaves them at their zero
    value; they are left out. *)
Record Driver := mkDriver {
  fname     : string;
  driverCmd : string;
  logger    : Logger
}.

Definition NewDriver (configFile driverCmd : string) (logger : Logger) : Driver :=
  {| fname := configFile; driverCmd := driverCmd; logger := logger |}.

(** An [*exec.Cmd] as [exec.Command(name, arg...)] builds it: [Args] holds
    the command line, the command itself first. *)
Record Cmd := mkCmd { Path : string; Args : list string }.

Definition exec_Command (name : string) (arg : list string) : Cmd :=
  {| Path := name; Args := name :: arg |}.

Definition createDriverCmd (d : Driver) : Cmd :=
  let cmdName := "python" in
  let cmdArgs := [ driverCmd d; "--config-file"; fname d ] in
  exec_Command cmdName cmdArgs.

(** The body of the scan loop of [runBigIPDriver] (lines 94-104): the
    level at which one line of the child's standard error is logged. *)
Definition lineLevel (text : string) : Level :=
  if Contains text "DEBUG]" then DebugLevel
  else if Contains text "Warn]" then WarnLevel
  else if Contains text "ERROR]" then ErrorLevel
  else if Contains text "CRITICAL]" then ErrorLevel
  else InfoLevel.

Definition logLine (text : string) : LogEntry :=
  {| level := lineLevel text; message := text; fields := [] |}.

(** ** What the operating system decides *)

(** A pipe to the child's error stream, the [io.ReadCloser] that a
    successful [cmd.StderrPipe()] hands out, by the lines that
    [bufio.Scanner.Scan] yields from it before it reports the end of the
    stream.  The nil reader that comes with an error is no [Reader]: it is
    [None] at the type [option Reader]. *)
Definition Reader := list string.

(** A [syscall.WaitStatus] as seen through [Signaled()], [Signal()] and
    [ExitStatus()]. *)
Inductive WaitStatus := Exited (status : Z) | Signaled (sig : Signal).

Definition WaitStatus_Signaled (w : WaitStatus) : bool :=
  match w with Signaled _ => true | Exited _ => false end.

Definition WaitStatus_Signal (w : WaitStatus) : Signal :=
  match w with Signaled sig => sig | Exited _ => mkSignal (-1) "signal -1" end.

Definition WaitStatus_ExitStatus (w : WaitStatus) : Z :=
  match w with Exited status => status | Signaled _ => -1 end.

(** The three shapes of the result of [cmd.Wait()] that [runBigIPDriver]
    tells apart: [nil] (the child ran and exited with status zero), an
    [*exec.ExitError] carrying the wait status, any other error. *)
Inductive WaitResult :=
| WaitNil
| WaitExitError (waitStatus : WaitStatus)
| WaitOther (err : error).

(** What [cmd.ProcessState.Sys()] holds when [cmd.Wait()] returned [nil]. *)
Definition ProcessState_Sys_of_success : WaitStatus := Exited 0.

Record Process := mkProcess { Process_Pid : Z }.

(** [StderrPipe] holds the two things the operating system decides about
    the child's error stream: the lines the child writes to it, and the
    error with which the creation of the pipe fails, if it does.  The
    program gets at the lines only through the reader that
    [cmd_StderrPipe] returns, and there is none when the creation fails. *)
Record Env := mkEnv {
  StderrPipe      : Reader * option error;  (* the child's stderr; does the pipe fail *)
  Start           : option error;           (* cmd.Start() *)
  Pid             : Z;                      (* cmd.Process.Pid after Start *)
  Wait            : WaitResult;             (* cmd.Wait() *)
  signals         : option Signal;          (* the value sent on [signals], if any ever is *)
  FindProcess_err : Z -> option error;      (* does os.FindProcess(pid) fail *)
  Signal_err      : Z -> Signal -> option error  (* does proc.Signal(sig) fail *)
}.

(** [os.FindProcess(pid)]: a handle for that pid, or an error. *)
Definition os_FindProcess (env : Env) (pid : Z) : Process + error :=
  match FindProcess_err env pid with
  | Some err => inr err
  | None => inl {| Process_Pid := pid |}
  end.

(** ** The two threads *)

(** Where [Driver.Run] stands. *)
Inductive RunPC :=
| R_begin                                          (* line 131 *)
| R_recv_pid                                       (* line 137, [pid := <-pidCh] *)
| R_ready (pid : Z)                                (* lines 138-139 *)
| R_recv_sig (pid : Z)                             (* line 141, [sig := <-signals] *)
| R_find (pid : Z) (sig : Signal)                  (* lines 143-147 *)
| R_signal (proc : Process) (pid : Z) (sig : Signal) (* lines 148-156 *)
| R_wait_done                                      (* lines 157-158, [<-done] *)
| R_return (err : option error).                   (* Run has returned [err] *)

(** Where the goroutine [runBigIPDriver] stands.  The variable [cmdOut] is
    [None] when it holds the nil reader. *)
Inductive DrvPC :=
| D_idle                                           (* not spawned yet *)
| D_pipe (cmd : Cmd)                               (* line 81 *)
| D_start (cmd : Cmd) (cmdOut : option Reader) (err : option error) (* lines 83-87 *)
| D_send_pid (cmdOut : option Reader)              (* line 89, [pid <- cmd.Process.Pid] *)
| D_scan (cmdOut : Reader)                         (* lines 91-108 *)
| D_wait                                           (* lines 109-124 *)
| D_close_done                                     (* line 126 *)
| D_deferred                                       (* the deferred [close(pid)] *)
| D_returned
| D_scan_nil.                                      (* lines 91-93 with [cmdOut] nil *)

Record State := mkState {
  run_pc       : RunPC;
  drv_pc       : DrvPC;
  ready_closed : bool;
  done_closed  : bool;
  pid_closed   : bool;
  child        : option Cmd;          (* the command that was started *)
  log          : list LogEntry;       (* what the logger received, newest first *)
  sent         : list (Z * Signal);   (* the calls [proc.Signal(sig)]: pid of [proc] and [sig], newest first *)
  halted       : bool                 (* the hosting process has been terminated *)
}.

Definition set_run (pc : RunPC) (s : State) : State :=
  mkState pc (drv_pc s) (ready_closed s) (done_closed s) (pid_closed s)
          (child s) (log s) (sent s) (halted s).

Definition set_drv (pc : DrvPC) (s : State) : State :=
  mkState (run_pc s) pc (ready_closed s) (done_closed s) (pid_closed s)
          (child s) (log s) (sent s) (halted s).

Definition emit (e : LogEntry) (s : State) : State :=
  mkState (run_pc s) (drv_pc s) (ready_closed s) (done_closed s) (pid_closed s)
          (child s) (e :: log s) (sent s) (halted s).

Definition logger_Debug msg fs := emit (mkLog DebugLevel msg fs).
Definition logger_Info msg fs := emit (mkLog InfoLevel msg fs).
Definition logger_Warn msg fs := emit (mkLog WarnLevel msg fs).
Definition logger_Error msg fs := emit (mkLog ErrorLevel msg fs).

(** Modelled from the spec: [logger.Fatal] of package [logger], which is
    not among the sources.  The specification gives its contract: a fatal
    log entry terminates the hosting process.  The entry is recorded and
    no thread takes a step afterwards. *)
Definition logger_Fatal (msg : string) (fs : list Field) (s : State) : State :=
  let s' := emit (mkLog FatalLevel msg fs) s in
  mkState (run_pc s') (drv_pc s') (ready_closed s') (done_closed s') (pid_closed s')
          (child s') (log s') (sent s') true.

(** A run-time panic of the goroutine.  [runBigIPDriver] recovers from
    none, so the deferred [close(pid)] of line 78 runs and the Go runtime
    then ends the process.  Nothing is logged, and no thread takes a step
    afterwards. *)
Definition runtime_panic (s : State) : State :=
  mkState (run_pc s) (drv_pc s) (ready_closed s) (done_closed s) true
          (child s) (log s) (sent s) true.

Definition close_ready (s : State) : State :=
  mkState (run_pc s) (drv_pc s) true (done_closed s) (pid_closed s)
          (child s) (log s) (sent s) (halted s).

Definition close_done (s : State) : State :=
  mkState (run_pc s) (drv_pc s) (ready_closed s) true (pid_closed s)
          (child s) (log s) (sent s) (halted s).

Definition close_pid (s : State) : State :=
  mkState (run_pc s) (drv_pc s) (ready_closed s) (done_closed s) true
          (child s) (log s) (sent s) (halted s).

Definition set_child (c : Cmd) (s : State) : State :=
  mkState (run_pc s) (drv_pc s) (ready_closed s) (done_closed s) (pid_closed s)
          (Some c) (log s) (sent s) (halted s).

Definition record_signal (pid : Z) (sig : Signal) (s : State) : State :=
  mkState (run_pc s) (drv_pc s) (ready_closed s) (done_closed s) (pid_closed s)
          (child s) (log s) ((pid, sig) :: sent s) (halted s).

(** [cmd.StderrPipe()] (line 81).  The method of [os/exec] returns the
    reader and no error, or, on each of its error paths, the nil reader and
    the error. *)
Definition cmd_StderrPipe (env : Env) : option Reader * option error :=
  match (StderrPipe env).2 with
  | Some err => (None, Some err)
  | None => (Some (StderrPipe env).1, None)
  end.

(** [bufio.NewScanner(cmdOut)] (line 91): the scanner takes any reader it
    is given, also the nil one, and reads from it only in [Scan]. *)
Definition bufio_NewScanner (cmdOut : option Reader) : DrvPC :=
  match cmdOut with
  | Some r => D_scan r
  | None => D_scan_nil
  end.

(** The unbuffered channel [pidCh]: the send of line 89 and the receive of
    line 137 happen together, whichever thread is scheduled. *)
Definition pid_rendezvous (env : Env) (cmdOut : option Reader) (s : State) : State :=
  set_run (R_ready (Pid env)) (set_drv (bufio_NewScanner cmdOut) s).

(** One step of [runBigIPDriver] (lines 73-127). *)
Definition runBigIPDriver (env : Env) (s : State) : State :=
  match drv_pc s with
  | D_idle => s
  | D_pipe cmd =>
      let '(cmdOut, err) := cmd_StderrPipe env in
      set_drv (D_start cmd cmdOut err) s
  | D_start cmd cmdOut err =>
      let err := Start env in
      match err with
      | Some e => logger_Fatal "f5router-driver-failed-start" [ZError e] s
      | None =>
          set_drv (D_send_pid cmdOut)
            (logger_Info "f5router-driver-process-pid" [ZInt "pid" (Pid env)]
               (set_child cmd s))
      end
  | D_send_pid cmdOut =>
      match run_pc s with
      | R_recv_pid => pid_rendezvous env cmdOut s
      | _ => s
      end
  | D_scan (text :: rest) => set_drv (D_scan rest) (emit (logLine text) s)
  | D_scan [] => set_drv D_wait s
  | D_wait =>
      match Wait env with
      | WaitExitError waitStatus =>
          if WaitStatus_Signaled waitStatus then
            logger_Fatal "f5router-driver-signaled-to-stop"
              [ZString "signal"
                 (itoa (signo (WaitStatus_Signal waitStatus)) +:+ " - " +:+
                  Signal_String (WaitStatus_Signal waitStatus))] s
          else
            logger_Fatal "f5router-driver-exited"
              [ZInt "exit-status" (WaitStatus_ExitStatus waitStatus)] s
      | WaitOther e => logger_Fatal "f5router-driver-exited" [ZError e] s
      | WaitNil =>
          let waitStatus := ProcessState_Sys_of_success in
          set_drv D_close_done
            (logger_Warn "f5router-driver-exited-normally"
               [ZInt "exit-status" (WaitStatus_ExitStatus waitStatus)] s)
      end
  | D_close_done => set_drv D_deferred (close_done s)
  | D_deferred => set_drv D_returned (close_pid s)
  | D_returned => s
  | D_scan_nil => runtime_panic s   (* line 93: [Scan] calls [Read] on the nil reader *)
  end.

(** One step of [Driver.Run] (lines 130-161). *)
Definition Run (d : Driver) (env : Env) (s : State) : State :=
  match run_pc s with
  | R_begin =>
      set_run R_recv_pid
        (set_drv (D_pipe (createDriverCmd d))
           (logger_Info "f5router-driver-starting" [] s))
  | R_recv_pid =>
      match drv_pc s with
      | D_send_pid cmdOut => pid_rendezvous env cmdOut s
      | _ => if pid_closed s then set_run (R_ready 0) s else s
      end
  | R_ready pid =>
      set_run (R_recv_sig pid)
        (logger_Info "f5router-driver-started" [] (close_ready s))
  | R_recv_sig pid =>
      match signals env with
      | Some sig => set_run (R_find pid sig) s
      | None => s
      end
  | R_find pid sig =>
      match os_FindProcess env pid with
      | inr err =>
          set_run (R_return (Some err))
            (logger_Warn "f5router-driver-failed-finding-process" [ZError err] s)
      | inl proc => set_run (R_signal proc pid sig) s
      end
  | R_signal proc pid sig =>
      let err := Signal_err env (Process_Pid proc) sig in
      let s := record_signal (Process_Pid proc) sig s in
      match err with
      | Some e =>
          set_run (R_return (Some e))
            (logger_Warn "f5router-driver-failed-signalling"
               [ZInt "pid" pid; ZString "signal" (Signal_String sig); ZError e] s)
      | None => set_run R_wait_done s
      end
  | R_wait_done =>
      if done_closed s then
        set_run (R_return None) (logger_Info "f5router-driver-stopped" [] s)
      else s
  | R_return _ => s
  end.

(** ** Schedules *)

Inductive Thread := RunThread | DriverThread.

Definition step (d : Driver) (env : Env) (t : Thread) (s : State) : State :=
  if halted s then s
  else match t with
       | RunThread => Run d env s
       | DriverThread => runBigIPDriver env s
       end.

(** The threads take their steps in the order the schedule lists them. *)
Definition exec (d : Driver) (env : Env) (sched : list Thread) (s : State) : State :=
  fold_left (fun s t => step d env t s) sched s.

Definition init : State :=
  {| run_pc := R_begin; drv_pc := D_idle;
     ready_closed := false; done_closed := false; pid_closed := false;
     child := None; log := []; sent := []; halted := false |}.

(** No thread can move any more: the process has been terminated, or each
    thread has returned or is blocked for good. *)
Definition quiescent (d : Driver) (env : Env) (s : State) : Prop :=
  forall t, step d env t s = s.

(** Round robin, [n] rounds. *)
Fixpoint round_robin (n : nat) : list Thread :=
  match n with
  | O => []
  | S n => RunThread :: DriverThread :: round_robin n
  end.

(* ================================================================== *)
(** * The aggregator (f5router.go, seen through f5router_test.go) *)
(* ================================================================== *)

(** ** Configuration entries *)

(** [rc.Item.Backend] of a [routeConfig]: the two fields the tests set,
    and the member endpoints the specification gives each entry. *)
Record backend := mkBackend {
  ServiceName : string;
  ServicePort : Z;                (* int32 *)
  PoolMemberAddrs : list string
}.

Record routeItem := mkItem { Backend : backend; Partition : string }.

Record routeConfig := mkRouteConfig { Item : routeItem }.

(** An L7 rule: its [FullURI], and the backend it sends traffic to. *)
Record rule := mkRule { FullURI : string; Target : string * Z }.

#[global] Instance backend_eq_dec : EqDecision backend.
Proof. solve_decision. Defined.
#[global] Instance routeItem_eq_dec : EqDecision routeItem.
Proof. solve_decision. Defined.
#[global] Instance routeConfig_eq_dec : EqDecision routeConfig.
Proof. solve_decision. Defined.
#[global] Instance rule_eq_dec : EqDecision rule.
Proof. solve_decision. Defined.

(** The backend identity of an entry. *)
Definition routeKey (rc : routeConfig) : string * Z :=
  (ServiceName (Backend (Item rc)), ServicePort (Backend (Item rc))).

(** ** Comparators *)

(** Go's [<] on strings: bytewise lexicographic. *)
Definition string_lt (a b : string) : bool := Stdlib.Strings.String.ltb a b.

(** Modelled from the spec: [routeConfigs.Less] of f5router.go, which is
    not among the sources.  "RouteConfigs are ordered by (ServiceName
    ascending, ServicePort ascending)." *)
Definition routeConfigs_Less (a b : routeConfig) : bool :=
  string_lt (ServiceName (Backend (Item a))) (ServiceName (Backend (Item b)))
  || (bool_decide (ServiceName (Backend (Item a)) = ServiceName (Backend (Item b)))
      && (ServicePort (Backend (Item a)) <? ServicePort (Backend (Item b)))).

(** Modelled from the spec: [rules.Less] of f5router.go, which is not among
    the sources.  "Rules are ordered by FullURI ascending (lexicographic
    over the full host+path string)." *)
Definition rules_Less (a b : rule) : bool :=
  string_lt (FullURI a) (FullURI b).

(** [a] may stand before [b] in a slice sorted by [Less]. *)
Definition not_after {A} (Less : A -> A -> bool) (a b : A) : Prop :=
  Less b a = false.

#[global] Instance not_after_dec {A} (Less : A -> A -> bool) (a b : A) :
  Decision (not_after Less a b).
Proof. unfold not_after. apply _. Defined.

(** [sort.Sort(data)] for a [data] whose [Less] is given.  The library
    promises a permutation of the slice in which no element is [Less] than
    one before it, and nothing about the order of equal elements; merge
    sort stands in for it.  On the entries of a model, which differ in
    their keys, every such permutation is the same list
    ([sort_Sort_routeConfigs_unique], [sort_Sort_rules_unique]). *)
Definition sort_Sort {A} (Less : A -> A -> bool) (data : list A) : list A :=
  merge_sort (not_after Less) data.

(** ** Maps whose entries carry their own key *)

Section keyed.
Context {K V : Type} `{Countable K} (key : V -> K).

(** Every entry of [m] is filed under its own key. *)
Definition filed (m : gmap K V) : Prop :=
  forall k v, m !! k = Some v -> key v = k.

Definition put (m : gmap K V) (v : V) : gmap K V := <[key v := v]> m.
Definition drop (m : gmap K V) (v : V) : gmap K V := delete (key v) m.

(** No two entries of [l] with the same key differ. *)
Definition agreeing (l : list V) : Prop :=
  forall x y, x ∈ l -> y ∈ l -> key x = key y -> x = y.

End keyed.

(** ** The Config Model and its snapshots *)

(** Modelled from the spec: the Config Model of f5router.go, which is not
    among the sources: "the aggregate { RouteConfigs (unordered map), Rules
    (unordered map) }", the first "a mapping from backend identity to
    routing entry", the second keyed by "a full URI". *)
Record ConfigModel := mkModel {
  routes : gmap (string * Z) routeConfig;
  rules  : gmap string rule
}.

Definition empty_model : ConfigModel := {| routes := ∅; rules := ∅ |}.

(** The model invariant: an entry is filed under its own key, so that no
    two entries of the model share a key. *)
Definition wf_model (m : ConfigModel) : Prop :=
  filed routeKey (routes m) /\ filed FullURI (rules m).

(** A [range] over a Go map visits its values in an unspecified order:
    [l] is one possible order for [m]. *)
Definition ranges_over {K V} `{Countable K} (l : list V) (m : gmap K V) : Prop :=
  l ≡ₚ (map_to_list m).*2.

(** A Snapshot: "an immutable, fully-ordered rendering of the Config
    Model". *)
Record Snapshot := mkSnapshot {
  snap_routes : list routeConfig;
  snap_rules  : list rule
}.

(** Modelled from the spec: the Snapshot Serializer of f5router.go, which
    is not among the sources.  The entries are collected from the two maps
    (in whatever order the maps yield them) and sorted with the
    comparators. *)
Definition snapshot_from (rcs : list routeConfig) (rls : list rule) : Snapshot :=
  {| snap_routes := sort_Sort routeConfigs_Less rcs;
     snap_rules := sort_Sort rules_Less rls |}.

Definition snapshot (m : ConfigModel) : Snapshot :=
  snapshot_from (map_to_list (routes m)).*2 (map_to_list (rules m)).*2.

(** ** Route updates *)

Inductive Event := Add | Remove.     (* registry.Add, registry.Remove *)

(** One call [RouteUpdate(event, registryView, uri)], by the event and the
    entries that the call derives from the registry view at [uri] when it
    runs. *)
Record RouteUpdateCall := mkCall {
  event          : Event;
  derived_routes : list routeConfig;
  derived_rules  : list rule
}.

Definition put_route := put routeKey.
Definition put_rule := put FullURI.
Definition drop_route := drop routeKey.
Definition drop_rule := drop FullURI.

(** Modelled from the spec: the mutation that [RouteUpdate] of f5router.go
    (not among the sources) performs under the lock.  "Add: derive/merge
    the RouteConfig for the backend(s) at uri ... and derive/merge the
    corresponding Rule(s)"; "Remove: delete the ... RouteConfig/Rule(s)
    associated with uri". *)
Definition mutate (u : RouteUpdateCall) (m : ConfigModel) : ConfigModel :=
  match event u with
  | Add =>
      {| routes := fold_left put_route (derived_routes u) (routes m);
         rules := fold_left put_rule (derived_rules u) (rules m) |}
  | Remove =>
      {| routes := fold_left drop_route (derived_routes u) (routes m);
         rules := fold_left drop_rule (derived_rules u) (rules m) |}
  end.

(** The model after the calls of [us] took the lock in that order. *)
Definition mutate_all (us : list RouteUpdateCall) (m : ConfigModel) : ConfigModel :=
  fold_left (fun m u => mutate u m) us m.

(** The entries that the calls of [us] derive, in the order of the calls. *)
Definition all_routes (us : list RouteUpdateCall) : list routeConfig :=
  us ≫= derived_routes.
Definition all_rules (us : list RouteUpdateCall) : list rule :=
  us ≫= derived_rules.

(** The calls of [us] describe one registry state: they never derive two
    different entries for the same key. *)
Definition coherent (us : list RouteUpdateCall) : Prop :=
  agreeing routeKey (all_routes us) /\ agreeing FullURI (all_rules us).

(** ** Construction *)

(** [config.BigIPConfig], by the five fields [makeConfig] of the tests
    fills in. *)
Record BigIPConfig := mkBigIP {
  URL          : string;
  User         : string;
  Pass         : string;
  Partitions   : list string;
  ExternalAddr : string
}.

Record Config := mkConfig { BigIP : BigIPConfig }.

(** [config.DefaultConfig()], as far as [TestBadConfig] shows it: none of
    the five settings is filled in. *)
Definition DefaultConfig : Config :=
  {| BigIP := {| URL := ""; User := ""; Pass := ""; Partitions := [];
                 ExternalAddr := "" |} |}.

(** [makeConfig] of f5router_test.go. *)
Definition makeConfig : Config :=
  {| BigIP := {| URL := "http://example.com"; User := "admin"; Pass := "pass";
                 Partitions := ["cf"]; ExternalAddr := "127.0.0.1" |} |}.

Definition is_empty (s : string) : bool := bool_decide (s = "").

(** Modelled from the spec: the validation of [NewF5Router] in f5router.go,
    which is not among the sources.  "Construction validation requires:
    management URL, username, password, at least one partition name, and
    an externally reachable address -- all non-empty; absence of any one
    fails construction."  The wording of the errors is not given. *)
Definition verifyConfig (c : Config) : option error :=
  if is_empty (URL (BigIP c)) then Some "no BigIP URL"
  else if is_empty (User (BigIP c)) then Some "no BigIP user"
  else if is_empty (Pass (BigIP c)) then Some "no BigIP password"
  else if bool_decide (Partitions (BigIP c) = []) then Some "no BigIP partition"
  else if is_empty (ExternalAddr (BigIP c)) then Some "no BigIP external address"
  else None.

Section Aggregator.

(** The wire schema of a snapshot is a contract with the reconciler and is
    left open: any function from snapshots to bytes. *)
Context (marshal : Snapshot -> list Byte.byte).

Definition serialize (m : ConfigModel) : list Byte.byte := marshal (snapshot m).

(** Modelled from the spec: the state of an [F5Router] of f5router.go,
    which is not among the sources, with the coalescing flush of the
    specification: a mutation "marks the model dirty and requests a
    flush"; "exactly one flush is in flight at any time"; the Config Sink
    receives one [Write] with the full snapshot per flush. *)
Record F5Router := mkRouter {
  cfg       : Config;
  model     : ConfigModel;
  dirty     : bool;                       (* a flush is requested and has not begun *)
  in_flight : option (list Byte.byte);    (* the flush in execution: what it sampled *)
  written   : list (list Byte.byte)       (* the [Write] calls the sink saw, newest first *)
}.

(** Modelled from the spec: [NewF5Router] of f5router.go, which is not
    among the sources.  A nil configuration is refused ([TestBadConfig],
    line 232), the settings are validated, and "construction also performs
    one initial flush of the (empty) model".  [writer] is what the sink has
    seen before. *)
Definition NewF5Router (logger : Logger) (c : option Config)
    (writer : list (list Byte.byte)) : option F5Router * option error :=
  match c with
  | None => (None, Some "nil configuration")
  | Some c =>
      match verifyConfig c with
      | Some err => (None, Some err)
      | None =>
          (Some {| cfg := c; model := empty_model; dirty := false;
                   in_flight := None;
                   written := serialize empty_model :: writer |},
           None)
      end
  end.

(** What can happen to a constructed aggregator: one of the concurrent
    [RouteUpdate] calls takes the lock and mutates the model; a requested
    flush begins and samples the model; the flush in flight completes its
    [Write]. *)
Inductive Action :=
| Call (u : RouteUpdateCall)
| FlushBegin
| FlushEnd.

Definition RouteUpdate (u : RouteUpdateCall) (r : F5Router) : F5Router :=
  {| cfg := cfg r; model := mutate u (model r); dirty := true;
     in_flight := in_flight r; written := written r |}.

Definition flush_begin (r : F5Router) : F5Router :=
  match dirty r, in_flight r with
  | true, None =>
      {| cfg := cfg r; model := model r; dirty := false;
         in_flight := Some (serialize (model r)); written := written r |}
  | _, _ => r
  end.

Definition flush_end (r : F5Router) : F5Router :=
  match in_flight r with
  | Some bytes =>
      {| cfg := cfg r; model := model r; dirty := dirty r;
         in_flight := None; written := bytes :: written r |}
  | None => r
  end.

Definition act (r : F5Router) (a : Action) : F5Router :=
  match a with
  | Call u => RouteUpdate u r
  | FlushBegin => flush_begin r
  | FlushEnd => flush_end r
  end.

Definition run_actions (acts : list Action) (r : F5Router) : F5Router :=
  fold_left act acts r.

(** The [RouteUpdate] calls among the actions, in the order they took the
    lock. *)
Definition calls_of (acts : list Action) : list RouteUpdateCall :=
  omap (fun a => match a with Call u => Some u | _ => None end) acts.

(** Nothing is pending: no flush is requested and none is in flight. *)
Definition settled (r : F5Router) : Prop :=
  dirty r = false /\ in_flight r = None.

End Aggregator.

(* ================================================================== *)
(** * Invariants of the driver *)
(* ================================================================== *)

Definition drv_before_send (pc : DrvPC) : Prop :=
  match pc with D_pipe _ | D_start _ _ _ | D_send_pid _ => True | _ => False end.

Definition drv_after_send (pc : DrvPC) : Prop :=
  match pc with
  | D_scan _ | D_scan_nil | D_wait | D_close_done | D_deferred | D_returned => True
  | _ => False
  end.

(** The signal has been forwarded and [proc.Signal] reported success. *)
Definition forwarded (env : Env) (s : State) : Prop :=
  exists sig, signals env = Some sig /\
    FindProcess_err env (Pid env) = None /\
    Signal_err env (Pid env) sig = None /\
    sent s = [(Pid env, sig)].

(** [Run] gave up on the shutdown with [e], and said so in a warning. *)
Definition gave_up (env : Env) (s : State) (e : error) : Prop :=
  exists sig, signals env = Some sig /\
    ((FindProcess_err env (Pid env) = Some e /\ sent s = [] /\
      In (mkLog WarnLevel "f5router-driver-failed-finding-process" [ZError e]) (log s))
     \/
     (FindProcess_err env (Pid env) = None /\
      Signal_err env (Pid env) sig = Some e /\ sent s = [(Pid env, sig)] /\
      In (mkLog WarnLevel "f5router-driver-failed-signalling"
            [ZInt "pid" (Pid env); ZString "signal" (Signal_String sig); ZError e])
         (log s))).

(** What holds where [Run] stands. *)
Definition run_inv (env : Env) (s : State) : Prop :=
  match run_pc s with
  | R_begin => drv_pc s = D_idle /\ sent s = []
  | R_recv_pid => drv_before_send (drv_pc s) /\ sent s = []
  | R_ready pid | R_recv_sig pid =>
      pid = Pid env /\ drv_after_send (drv_pc s) /\ sent s = []
  | R_find pid sig =>
      pid = Pid env /\ signals env = Some sig /\
      drv_after_send (drv_pc s) /\ sent s = []
  | R_signal proc pid sig =>
      pid = Pid env /\ proc = mkProcess pid /\ signals env = Some sig /\
      FindProcess_err env pid = None /\
      drv_after_send (drv_pc s) /\ sent s = []
  | R_wait_done => drv_after_send (drv_pc s) /\ forwarded env s
  | R_return None =>
      drv_after_send (drv_pc s) /\ forwarded env s /\ done_closed s = true
  | R_return (Some e) => drv_after_send (drv_pc s) /\ gave_up env s e
  end.

(** The fatal entry that ends the process when the child's exit is
    reported as an error. *)
Definition exit_entry (w : WaitResult) : option LogEntry :=
  match w with
  | WaitNil => None
  | WaitExitError (Signaled sig) =>
      Some (mkLog FatalLevel "f5router-driver-signaled-to-stop"
              [ZString "signal" (itoa (signo sig) +:+ " - " +:+ Signal_String sig)])
  | WaitExitError (Exited status) =>
      Some (mkLog FatalLevel "f5router-driver-exited" [ZInt "exit-status" status])
  | WaitOther e =>
      Some (mkLog FatalLevel "f5router-driver-exited" [ZError e])
  end.

Definition channels (s : State) : bool * bool := (done_closed s, pid_closed s).

(** What holds where the goroutine stands. *)
Definition drv_inv (d : Driver) (env : Env) (s : State) : Prop :=
  match drv_pc s with
  | D_idle =>
      child s = None /\ halted s = false /\ channels s = (false, false) /\ log s = []
  | D_pipe cmd =>
      cmd = createDriverCmd d /\
      child s = None /\ halted s = false /\ channels s = (false, false)
  | D_start cmd cmdOut err =>
      cmd = createDriverCmd d /\ (cmdOut, err) = cmd_StderrPipe env /\
      child s = None /\ channels s = (false, false) /\
      (halted s = true ->
       exists e, Start env = Some e /\
         head (log s) = Some (mkLog FatalLevel "f5router-driver-failed-start" [ZError e]))
  | D_send_pid _ | D_scan _ =>
      Start env = None /\ child s = Some (createDriverCmd d) /\
      halted s = false /\ channels s = (false, false)
  | D_wait =>
      Start env = None /\ child s = Some (createDriverCmd d) /\
      channels s = (false, false) /\
      (halted s = true ->
       exists entry, exit_entry (Wait env) = Some entry /\ head (log s) = Some entry)
  | D_close_done =>
      Start env = None /\ child s = Some (createDriverCmd d) /\
      Wait env = WaitNil /\ halted s = false /\ channels s = (false, false)
  | D_deferred =>
      Start env = None /\ child s = Some (createDriverCmd d) /\
      Wait env = WaitNil /\ halted s = false /\ channels s = (true, false)
  | D_returned =>
      Start env = None /\ child s = Some (createDriverCmd d) /\
      Wait env = WaitNil /\ halted s = false /\ channels s = (true, true)
  | D_scan_nil =>
      Start env = None /\ child s = Some (createDriverCmd d) /\
      channels s = (false, halted s)
  end.

Definition Inv (d : Driver) (env : Env) (s : State) : Prop :=
  run_inv env s /\ drv_inv d env s.

(** The lines of the child's error stream that the scan loop has taken
    so far have been handed to the logger. *)
Definition scan_inv (env : Env) (s : State) : Prop :=
  match drv_pc s with
  | D_idle | D_pipe _ | D_scan_nil => True
  | D_start _ cmdOut _ | D_send_pid cmdOut =>
      forall r, cmdOut = Some r -> r = (StderrPipe env).1
  | D_scan rest =>
      exists taken, (StderrPipe env).1 = taken ++ rest /\
                    Forall (fun text => In (logLine text) (log s)) taken
  | D_wait | D_close_done | D_deferred | D_returned =>
      Forall (fun text => In (logLine text) (log s)) (StderrPipe env).1
  end.

(** Whether the goroutine got a pipe decides whether it scans: it comes to
    the scan loop and beyond only with a reader, and to the scanner over
    the nil reader only without. *)
Definition pipe_inv (env : Env) (s : State) : Prop :=
  match drv_pc s with
  | D_idle | D_pipe _ => True
  | D_start _ cmdOut _ | D_send_pid cmdOut => cmdOut = (cmd_StderrPipe env).1
  | D_scan _ | D_wait | D_close_done | D_deferred | D_returned =>
      (StderrPipe env).2 = None
  | D_scan_nil => (StderrPipe env).2 <> None
  end.

(** The scan loop has seen the end of the stream. *)
Definition drv_after_scan (pc : DrvPC) : Prop :=
  match pc with
  | D_wait | D_close_done | D_deferred | D_returned => True
  | _ => False
  end.

(** ** Progress of the driver *)

Definition run_rank (pc : RunPC) : nat :=
  match pc with
  | R_begin => 7 | R_recv_pid => 6 | R_ready _ => 5 | R_recv_sig _ => 4
  | R_find _ _ => 3 | R_signal _ _ _ => 2 | R_wait_done => 1 | R_return _ => 0
  end%nat.

Definition drv_rank (env : Env) (pc : DrvPC) : nat :=
  match pc with
  | D_idle => length (StderrPipe env).1 + 8
  | D_pipe _ => length (StderrPipe env).1 + 7
  | D_start _ cmdOut _ => length (default [] cmdOut) + 6
  | D_send_pid cmdOut => length (default [] cmdOut) + 5
  | D_scan cmdOut => length cmdOut + 4
  | D_wait => 3 | D_close_done => 2 | D_deferred => 1 | D_returned => 0
  | D_scan_nil => 1
  end%nat.

(** An upper bound on the number of steps the two threads can still take. *)
Definition steps_left (env : Env) (s : State) : nat :=
  if halted s then 0%nat
  else (1 + run_rank (run_pc s) + drv_rank env (drv_pc s))%nat.

(** Rounds of round robin that bring every execution to rest. *)
Definition fuel (env : Env) : nat := (length (StderrPipe env).1 + 16)%nat.

(** ** Statements about the driver *)

(** What the operating system contributes to a shutdown that goes through:
    the pipe is created, the child starts and exits with status zero, a
    signal arrives, the process is found and the signal is delivered
    without error.  These are facts about the whole run; nothing is said
    about the order of the exit and the delivery. *)
Definition clean_shutdown (env : Env) : Prop :=
  (StderrPipe env).2 = None /\
  Start env = None /\ Wait env = WaitNil /\
  exists sig, signals env = Some sig /\
    FindProcess_err env (Pid env) = None /\
    Signal_err env (Pid env) sig = None.

(** The levels as the sentence about diagnostic lines has them, for a
    level [critical] that is to match the marker [CRITICAL]]. *)
Definition levels_as_stated (critical : Level) : Prop :=
  forall text,
    (Contains text "DEBUG]" = true -> lineLevel text = DebugLevel) /\
    (Contains text "Warn]" = true -> lineLevel text = WarnLevel) /\
    (Contains text "ERROR]" = true -> lineLevel text = ErrorLevel) /\
    (Contains text "CRITICAL]" = true -> lineLevel text = critical) /\
    (Contains text "DEBUG]" = false -> Contains text "Warn]" = false ->
     Contains text "ERROR]" = false -> Contains text "CRITICAL]" = false ->
     lineLevel text = InfoLevel).

(** The command name is one of the settings a [Driver] is built from. *)
Definition interpreter_is_configured : Prop :=
  exists setting : Driver -> string,
    In setting [fname; driverCmd; logger] /\
    forall d, Path (createDriverCmd d) = setting d.

(** ** Sample runs *)

Definition d0 : Driver := NewDriver "/tmp/bigip-config.json" DefaultCmd "f5router".

Definition SIGTERM : Signal := mkSignal 15 "terminated".
Definition SIGKILL : Signal := mkSignal 9 "killed".

Definition env_clean : Env :=
  {| StderrPipe := (["2017 [DEBUG] polling"; "started"; "[CRITICAL] lost device"], None);
     Start := None; Pid := 4242; Wait := WaitNil;
     signals := Some SIGTERM;
     FindProcess_err := fun _ => None;
     Signal_err := fun _ _ => None |}.

Definition env_crash : Env :=
  {| StderrPipe := (["Traceback"], None);
     Start := None; Pid := 4242; Wait := WaitExitError (Exited 1);
     signals := Some SIGTERM;
     FindProcess_err := fun _ => None;
     Signal_err := fun _ _ => None |}.

Definition env_killed : Env :=
  {| StderrPipe := ([], None);
     Start := None; Pid := 4242; Wait := WaitExitError (Signaled SIGKILL);
     signals := None;
     FindProcess_err := fun _ => None;
     Signal_err := fun _ _ => None |}.

Definition env_finished : Env :=
  {| StderrPipe := ([], None);
     Start := None; Pid := 4242; Wait := WaitNil;
     signals := Some SIGTERM;
     FindProcess_err := fun _ => None;
     Signal_err := fun _ _ => Some "os: process already finished" |}.

Definition env_lost : Env :=
  {| StderrPipe := ([], None);
     Start := None; Pid := 4242; Wait := WaitNil;
     signals := Some SIGTERM;
     FindProcess_err := fun _ => Some "OpenProcess: invalid parameter";
     Signal_err := fun _ _ => None |}.

Definition env_no_pipe : Env :=
  {| StderrPipe := (["[ERROR] device unreachable"], Some "pipe: too many open files");
     Start := None; Pid := 4242; Wait := WaitNil;
     signals := Some SIGTERM;
     FindProcess_err := fun _ => None;
     Signal_err := fun _ _ => None |}.

(** ** Statements about the ordering *)

(** [a] stands before [b] in the order of the RouteConfigs: by
    [ServiceName], and by [ServicePort] among equal names. *)
Definition routeConfig_le (a b : routeConfig) : Prop :=
  string_lt (ServiceName (Backend (Item a))) (ServiceName (Backend (Item b))) = true \/
  (ServiceName (Backend (Item a)) = ServiceName (Backend (Item b)) /\
   ServicePort (Backend (Item a)) <= ServicePort (Backend (Item b))).

(** [a] stands before [b] in the order of the Rules: by [FullURI]. *)
Definition rule_le (a b : rule) : Prop :=
  string_lt (FullURI a) (FullURI b) = true \/ FullURI a = FullURI b.

(** Every earlier element of [l] is related to every later one. *)
Definition ascending {A} (R : A -> A -> Prop) (l : list A) : Prop :=
  forall (i j : nat) a b, (i < j)%nat -> l !! i = Some a -> l !! j = Some b -> R a b.

(** ** The slices of [TestRouteConfigSort] and [TestRulesSort] *)

Definition rc (name : string) (port : Z) : routeConfig :=
  {| Item := {| Backend := {| ServiceName := name; ServicePort := port;
                              PoolMemberAddrs := [] |};
                Partition := "" |} |}.

Definition test_routeconfigs : list routeConfig :=
  [rc "bar" 80; rc "foo" 2; rc "foo" 8080; rc "baz" 1; rc "foo" 80;
   rc "foo" 9090; rc "baz" 1000; rc "foo" 8080; rc "foo" 1; rc "bar" 1].

Definition test_routeconfigs_expected : list routeConfig :=
  [rc "bar" 1; rc "bar" 80; rc "baz" 1; rc "baz" 1000; rc "foo" 1;
   rc "foo" 2; rc "foo" 80; rc "foo" 8080; rc "foo" 8080; rc "foo" 9090].

Definition l7rule (uri : string) : rule := {| FullURI := uri; Target := ("", 0) |}.

Definition test_rules : list rule :=
  map l7rule ["bar"; "foo"; "foo"; "baz"; "foo"; "foo"; "baz"; "foo"; "foo"; "bar"].

Definition test_rules_expected : list rule :=
  map l7rule ["bar"; "bar"; "baz"; "baz"; "foo"; "foo"; "foo"; "foo"; "foo"; "foo"].

(** ** Sample models *)

Definition rc_foo : routeConfig :=
  {| Item := {| Backend := {| ServiceName := "foo.cf.com"; ServicePort := 80;
                              PoolMemberAddrs := ["127.0.0.1"] |};
                Partition := "cf" |} |}.
Definition rc_bar : routeConfig :=
  {| Item := {| Backend := {| ServiceName := "bar.cf.com"; ServicePort := 80;
                              PoolMemberAddrs := ["127.0.1.1"; "127.0.1.2"] |};
                Partition := "cf" |} |}.
Definition rule_foo : rule := {| FullURI := "foo.cf.com"; Target := ("foo.cf.com", 80) |}.
Definition rule_bar : rule := {| FullURI := "bar.cf.com"; Target := ("bar.cf.com", 80) |}.

Definition add_foo : RouteUpdateCall :=
  {| event := Add; derived_routes := [rc_foo]; derived_rules := [rule_foo] |}.
Definition add_bar : RouteUpdateCall :=
  {| event := Add; derived_routes := [rc_bar]; derived_rules := [rule_bar] |}.

Definition model_foo_bar : ConfigModel := mutate_all [add_foo; add_bar] empty_model.

(** A wire format to run the samples with: the names and the URIs, each
    followed by a newline. *)
Definition sample_marshal (s : Snapshot) : list Byte.byte :=
  Stdlib.Strings.String.list_byte_of_string
    (foldr (fun rc acc => ServiceName (Backend (Item rc)) +:+ "
" +:+ acc) "" (snap_routes s) +:+
     foldr (fun r acc => FullURI r +:+ "
" +:+ acc) "" (snap_rules s)).

(** A flush that is requested and a flush that is in flight are flushes
    still to be written. *)
Definition pending (r : F5Router) : nat :=
  ((if dirty r then 1 else 0) + (match in_flight r with Some _ => 1 | None => 0 end))%nat.

(** The configurations that [TestBadConfig] tries in turn. *)
Definition bad1 : Config :=
  {| BigIP := {| URL := "http://example.com"; User := ""; Pass := "";
                 Partitions := []; ExternalAddr := "" |} |}.
Definition bad2 : Config :=
  {| BigIP := {| URL := "http://example.com"; User := "admin"; Pass := "";
                 Partitions := []; ExternalAddr := "" |} |}.
Definition bad3 : Config :=
  {| BigIP := {| URL := "http://example.com"; User := "admin"; Pass := "pass";
                 Partitions := []; ExternalAddr := "" |} |}.
Definition bad4 : Config :=
  {| BigIP := {| URL := "http://example.com"; User := "admin"; Pass := "pass";
                 Partitions := ["cf"]; ExternalAddr := "" |} |}.

(** A constructed aggregator and a burst of three calls with two of the
    flushes that the schedule may place among them. *)
Definition router0 : F5Router :=
  {| cfg := makeConfig; model := empty_model; dirty := false; in_flight := None;
     written := [serialize sample_marshal empty_model] |}.

Definition burst : list Action :=
  [Call add_foo; FlushBegin; Call add_bar; FlushEnd; Call add_foo;
   FlushBegin; FlushEnd].

(* ================================================================== *)
(** * Further statements about the driver *)
(* ================================================================== *)

(** The log in the order the entries were written. *)
Definition history (s : State) : list LogEntry := rev (log s).

(** The entry of line 87 and the entry of line 123. *)
Definition pid_entry (env : Env) : LogEntry :=
  mkLog InfoLevel "f5router-driver-process-pid" [ZInt "pid" (Pid env)].

Definition normal_exit_entry : LogEntry :=
  mkLog WarnLevel "f5router-driver-exited-normally" [ZInt "exit-status" 0].

Definition failed_start_entry (e : error) : LogEntry :=
  mkLog FatalLevel "f5router-driver-failed-start" [ZError e].

(** [Run] is past line 138. *)
Definition run_past_ready (pc : RunPC) : Prop :=
  match pc with R_begin | R_recv_pid | R_ready _ => False | _ => True end.

(** The goroutine is past line 87: [cmd.Start()] has succeeded. *)
Definition drv_started (pc : DrvPC) : Prop :=
  match pc with
  | D_send_pid _ | D_scan _ | D_scan_nil
  | D_wait | D_close_done | D_deferred | D_returned => True
  | _ => False
  end.

(** The goroutine is past line 123: [cmd.Wait()] has returned [nil]. *)
Definition drv_exited (pc : DrvPC) : Prop :=
  match pc with D_close_done | D_deferred | D_returned => True | _ => False end.

Definition trace_inv (env : Env) (s : State) : Prop :=
  (ready_closed s = true <-> run_past_ready (run_pc s)) /\
  (drv_started (drv_pc s) -> In (pid_entry env) (log s)) /\
  (drv_exited (drv_pc s) -> In normal_exit_entry (log s)).

Definition not_fatal (e : LogEntry) : Prop := level e <> FatalLevel.

(** A fatal entry is the newest entry of the log of a process that a fatal
    log has terminated, and there is no other; a process that is alive, or
    that a panic has ended, has none. *)
Definition fatal_inv (s : State) : Prop :=
  if halted s
  then (drv_pc s = D_scan_nil /\ Forall not_fatal (log s)) \/
       (drv_pc s <> D_scan_nil /\
        exists e rest, log s = e :: rest /\ level e = FatalLevel /\ Forall not_fatal rest)
  else Forall not_fatal (log s).

(** The lines taken so far appear in the log in the order of the stream. *)
Definition order_inv (env : Env) (s : State) : Prop :=
  match drv_pc s with
  | D_idle | D_pipe _ | D_scan_nil => True
  | D_start _ cmdOut _ | D_send_pid cmdOut =>
      forall r, cmdOut = Some r -> r = (StderrPipe env).1
  | D_scan rest =>
      exists taken, (StderrPipe env).1 = taken ++ rest /\
                    map logLine taken `sublist_of` history s
  | D_wait | D_close_done | D_deferred | D_returned =>
      map logLine (StderrPipe env).1 `sublist_of` history s
  end.

(** [sub] occurs in [s]. *)
Definition occurs (sub s : string) : Prop :=
  exists pre post, s = pre +:+ sub +:+ post.

(** ** More sample runs *)

Definition env_no_start : Env :=
  {| StderrPipe := (["never read"], None);
     Start := Some "exec: python: executable file not found in $PATH";
     Pid := 0; Wait := WaitNil;
     signals := Some SIGTERM;
     FindProcess_err := fun _ => None;
     Signal_err := fun _ _ => None |}.

Definition env_unasked : Env :=
  {| StderrPipe := (["[DEBUG] one"; "two"], None);
     Start := None; Pid := 4242; Wait := WaitNil;
     signals := None;
     FindProcess_err := fun _ => None;
     Signal_err := fun _ _ => None |}.

Definition env_wait_fails : Env :=
  {| StderrPipe := ([], None);
     Start := None; Pid := 4242; Wait := WaitOther "wait: no child processes";
     signals := Some SIGTERM;
     FindProcess_err := fun _ => None;
     Signal_err := fun _ _ => None |}.

(** The entries of lines 131, 139 and 158. *)
Definition starting_entry : LogEntry := mkLog InfoLevel "f5router-driver-starting" [].
Definition started_entry : LogEntry := mkLog InfoLevel "f5router-driver-started" [].
Definition stopped_entry : LogEntry := mkLog InfoLevel "f5router-driver-stopped" [].

(** The order in which the entries of the two threads reach the log. *)
Definition milestones (env : Env) (s : State) : Prop :=
  (run_pc s <> R_begin -> head (history s) = Some starting_entry) /\
  (drv_started (drv_pc s) ->
   [starting_entry; pid_entry env] `sublist_of` history s) /\
  (run_past_ready (run_pc s) ->
   [starting_entry; pid_entry env; started_entry] `sublist_of` history s) /\
  (drv_exited (drv_pc s) ->
   [starting_entry; pid_entry env; normal_exit_entry] `sublist_of` history s) /\
  (run_pc s = R_return None ->
   [starting_entry; pid_entry env; normal_exit_entry; stopped_entry]
     `sublist_of` history s).

(** What [Run] has logged when it stands at [pc] without having returned
    an error, newest first. *)
Definition run_entries (pc : RunPC) : list LogEntry :=
  match pc with
  | R_begin => []
  | R_recv_pid | R_ready _ => [starting_entry]
  | R_recv_sig _ | R_find _ _ | R_signal _ _ _ | R_wait_done =>
      [started_entry; starting_entry]
  | R_return _ => [stopped_entry; started_entry; starting_entry]
  end.

(** What the goroutine has logged when it stands at [pc] in a process that
    is alive, newest first. *)
Definition drv_entries (env : Env) (pc : DrvPC) : list LogEntry :=
  match pc with
  | D_idle | D_pipe _ | D_start _ _ _ => []
  | D_send_pid _ | D_scan_nil => [pid_entry env]
  | D_scan rest =>
      rev (map logLine (take (length (StderrPipe env).1 - length rest)
                             (StderrPipe env).1))
      ++ [pid_entry env]
  | D_wait => rev (map logLine (StderrPipe env).1) ++ [pid_entry env]
  | D_close_done | D_deferred | D_returned =>
      normal_exit_entry :: rev (map logLine (StderrPipe env).1) ++ [pid_entry env]
  end.

(** As long as the process is alive and [Run] has not returned an error,
    the log holds what the two threads have logged, interleaved. *)
Definition log_inv (env : Env) (s : State) : Prop :=
  halted s = false -> (forall e, run_pc s <> R_return (Some e)) ->
  log s ≡ₚ run_entries (run_pc s) ++ drv_entries env (drv_pc s).


(** The goroutine supervises the child: it reads the child's error stream
    in the scan loop, or is past the loop, at [cmd.Wait()] or beyond. *)
Definition drv_supervising (pc : DrvPC) : Prop :=
  match pc with
  | D_scan _ | D_wait | D_close_done | D_deferred | D_returned => True
  | _ => False
  end.

(* ================================================================== *)
(** * The driver: invariants of every execution *)
(* ================================================================== *)

Lemma Inv_init d env : Inv d env init.
Proof. repeat split. Qed.

Ltac split_pcs rp dp :=
  destruct rp as [| |?pid|?pid|?pid ?sig|?proc ?pid ?sig| |[?e|]];
  destruct dp as [|?cmd|?cmd ?cmdOut ?err|?cmdOut|[|?text ?rest]| | | | |];
  simpl in *;
  try (exfalso; tauto).

Ltac rewrite_sent_nil H :=
  match goal with
  | E : sent _ = [] |- _ => rewrite E in H; destruct H
  end.

Lemma Inv_step d env t s : Inv d env s -> Inv d env (step d env t s).
Proof.
  intros [Hr Hd]. unfold step.
  destruct (halted s) eqn:Hh; [by split|].
  destruct s as [rp dp rc dc pc ch lg sn h]; simpl in Hh; subst h.
  unfold run_inv, drv_inv, Inv, forwarded, gave_up, channels in *; simpl in *.
  split_pcs rp dp.
  all: destruct t;
       unfold Run, runBigIPDriver, os_FindProcess, pid_rendezvous,
         bufio_NewScanner, cmd_StderrPipe; simpl.
  all: repeat case_match; simpl in *;
       unfold run_inv, drv_inv, forwarded, gave_up, channels, cmd_StderrPipe;
       simpl.
  all: try match goal with H : Wait _ = _ |- _ => rewrite H end;
       try match goal with w : WaitStatus |- _ => destruct w end;
       simpl in *; try discriminate.
  all: try (intuition (simplify_eq; eauto 6); fail).
  all: try (naive_solver; fail).
  all: try match goal with H : (StderrPipe _).2 = _ |- _ => rewrite H end.
  all: naive_solver.
Qed.

Lemma Inv_exec_from d env sched s :
  Inv d env s -> Inv d env (exec d env sched s).
Proof.
  revert s. induction sched as [|t sched IH]; intros s Hs; [done|].
  apply IH, Inv_step, Hs.
Qed.

Lemma Inv_exec d env sched : Inv d env (exec d env sched init).
Proof. apply Inv_exec_from, Inv_init. Qed.

Lemma log_grows d env t s entry :
  In entry (log s) -> In entry (log (step d env t s)).
Proof.
  intros Hin. unfold step. destruct (halted s); [done|].
  destruct t; unfold Run, runBigIPDriver, os_FindProcess, pid_rendezvous,
      bufio_NewScanner, cmd_StderrPipe;
    repeat case_match; simpl; auto.
Qed.

Lemma scan_inv_step d env t s :
  scan_inv env s -> scan_inv env (step d env t s).
Proof.
  intros Hs.
  assert (drv_pc (step d env t s) = drv_pc s -> scan_inv env (step d env t s))
    as Hsame.
  { intros Hpc. unfold scan_inv in *. rewrite Hpc.
    destruct (drv_pc s); try done.
    - destruct Hs as (taken & Heq & Hall). exists taken. split; [done|].
      eapply Forall_impl; [exact Hall|]. intros text. apply log_grows.
    - eapply Forall_impl; [exact Hs|]. intros text. apply log_grows.
    - eapply Forall_impl; [exact Hs|]. intros text. apply log_grows.
    - eapply Forall_impl; [exact Hs|]. intros text. apply log_grows.
    - eapply Forall_impl; [exact Hs|]. intros text. apply log_grows. }
  unfold step in *. destruct (halted s); [done|].
  destruct s as [rp dp rc dc pc ch lg sn h]. unfold scan_inv in Hs; simpl in Hs.
  destruct t.
  - unfold Run, os_FindProcess, pid_rendezvous,
      bufio_NewScanner, cmd_StderrPipe in *; simpl in *.
    destruct rp as [| |?pid|?pid|?pid ?sig|?proc ?pid ?sig| |[?e|]]; simpl in *;
      try (apply Hsame; repeat case_match; reflexivity).
    + done.
    + destruct dp; simpl in *; try (apply Hsame; repeat case_match; reflexivity).
      destruct cmdOut as [r|]; [|done].
      rewrite (Hs r eq_refl). exists []. split; [done|constructor].
  - unfold runBigIPDriver, pid_rendezvous, bufio_NewScanner, cmd_StderrPipe in *; simpl in *.
    destruct dp as [|?cmd|?cmd ?cmdOut ?err|?cmdOut|[|?text ?rest]| | | | |];
      simpl in *; try done.
    + unfold scan_inv, cmd_StderrPipe.
      destruct (StderrPipe env).2; simpl; congruence.
    + destruct (Start env); [by apply Hsame|]. done.
    + destruct rp; try (by apply Hsame).
      destruct cmdOut as [r|]; [|done].
      rewrite (Hs r eq_refl). exists []. split; [done|constructor].
    + destruct Hs as (taken & Heq & Hall). unfold scan_inv; simpl.
      by rewrite Heq, app_nil_r.
    + destruct Hs as (taken & Heq & Hall). unfold scan_inv; simpl.
      exists (taken ++ [text]). split; [by rewrite <- app_assoc|].
      apply Forall_app. split.
      * eapply Forall_impl; [exact Hall|]. intros t Ht. by right.
      * constructor; [by left|constructor].
    + repeat case_match; try (by apply Hsame).
      unfold scan_inv; simpl. eapply Forall_impl; [exact Hs|].
      intros t Ht. by right.
Qed.

Lemma scan_inv_exec d env sched : scan_inv env (exec d env sched init).
Proof.
  assert (forall s, scan_inv env s -> scan_inv env (exec d env sched s)) as Hgen.
  { induction sched as [|t sched IH]; intros s Hs; [done|].
    apply IH, scan_inv_step, Hs. }
  apply Hgen. exact I.
Qed.

Lemma pipe_inv_step d env t s :
  pipe_inv env s -> pipe_inv env (step d env t s).
Proof.
  intros Hs. unfold step. destruct (halted s); [done|].
  destruct s as [rp dp rc dc pc ch lg sn h]. unfold pipe_inv in *; simpl in *.
  destruct t.
  - unfold Run, os_FindProcess, pid_rendezvous, bufio_NewScanner, cmd_StderrPipe in *.
    destruct rp as [| |?pid|?pid|?pid ?sig|?proc ?pid ?sig| |[?e|]];
      destruct dp as [|?cmd|?cmd ?cmdOut ?err|?cmdOut|[|?text ?rest]| | | | |];
      simpl in *; repeat case_match; simplify_eq/=; done.
  - unfold runBigIPDriver, pid_rendezvous, bufio_NewScanner, cmd_StderrPipe in *.
    destruct dp as [|?cmd|?cmd ?cmdOut ?err|?cmdOut|[|?text ?rest]| | | | |];
      simpl in *; repeat case_match; simplify_eq/=; done.
Qed.

Lemma pipe_inv_exec d env sched : pipe_inv env (exec d env sched init).
Proof.
  assert (forall s, pipe_inv env s -> pipe_inv env (exec d env sched s)) as Hgen.
  { induction sched as [|t sched IH]; intros s Hs; [done|].
    apply IH, pipe_inv_step, Hs. }
  apply Hgen. exact I.
Qed.

Lemma exec_app d env sched1 sched2 s :
  exec d env (sched1 ++ sched2) s = exec d env sched2 (exec d env sched1 s).
Proof. apply fold_left_app. Qed.

(** ** Progress *)

Lemma step_progress d env t s :
  Inv d env s ->
  step d env t s = s \/ (steps_left env (step d env t s) < steps_left env s)%nat.
Proof.
  intros [Hr _]. unfold step, steps_left.
  destruct s as [rp dp rc dc pc ch lg sn h]; simpl.
  destruct h; [by left|].
  unfold run_inv in Hr; simpl in Hr.
  destruct t; unfold Run, runBigIPDriver, os_FindProcess, pid_rendezvous,
      bufio_NewScanner, cmd_StderrPipe; simpl.
  - destruct rp as [| |?pid|?pid|?pid ?sig|?proc ?pid ?sig| |[?e|]]; simpl;
      unfold bufio_NewScanner;
      repeat case_match; destruct_and?; simplify_eq/=;
      try (by left); right; simpl; lia.
  - destruct dp as [|?cmd|?cmd ?cmdOut ?err|?cmdOut|[|?text ?rest]| | | | |]; simpl;
      unfold bufio_NewScanner, cmd_StderrPipe;
      repeat case_match; simplify_eq/=; try (by left); right; simpl; lia.
Qed.

Lemma quiescent_exec d env sched s :
  quiescent d env s -> exec d env sched s = s.
Proof.
  intros Hq. induction sched as [|t sched IH]; [done|].
  simpl. by rewrite (Hq t).
Qed.

Lemma halted_quiescent d env s : halted s = true -> quiescent d env s.
Proof. intros Hh t. unfold step. by rewrite Hh. Qed.

Lemma round_robin_rests d env n s :
  Inv d env s -> (steps_left env s <= n)%nat ->
  quiescent d env (exec d env (round_robin n) s).
Proof.
  revert s. induction n as [|n IH]; intros s Hs Hn.
  - simpl. apply halted_quiescent.
    unfold steps_left in Hn. destruct (halted s); [done|lia].
  - simpl.
    pose proof (Inv_step d env RunThread s Hs) as Hs1.
    pose proof (Inv_step d env DriverThread _ Hs1) as Hs2.
    destruct (step_progress d env RunThread s Hs) as [Hr|Hr];
      destruct (step_progress d env DriverThread _ Hs1) as [Hd|Hd].
    + rewrite Hd, Hr.
      assert (quiescent d env s) as Hq.
      { intros [|]; [done|]. by rewrite Hr in Hd. }
      by rewrite quiescent_exec.
    + apply IH; [done|]. rewrite Hr in *. lia.
    + apply IH; [done|]. rewrite Hd. lia.
    + apply IH; [done|]. lia.
Qed.

Lemma exec_rests d env :
  quiescent d env (exec d env (round_robin (fuel env)) init).
Proof.
  apply round_robin_rests; [apply Inv_init|].
  unfold steps_left, fuel. simpl. lia.
Qed.

(** At rest, either the process has been terminated, or the goroutine has
    returned and [Run] has returned or waits for a signal that never
    comes. *)
Lemma quiescent_cases d env s :
  Inv d env s -> quiescent d env s ->
  halted s = true \/
  (halted s = false /\ drv_pc s = D_returned /\
   ((exists r, run_pc s = R_return r) \/
    (signals env = None /\ exists pid, run_pc s = R_recv_sig pid))).
Proof.
  intros [Hr Hd] Hq.
  destruct (halted s) eqn:Hh; [by left|right].
  pose proof (Hq RunThread) as HR. pose proof (Hq DriverThread) as HD.
  unfold step in HR, HD. rewrite Hh in HR, HD.
  destruct s as [rp dp rc dc pc ch lg sn h]; simpl in Hh; subst h.
  unfold run_inv, drv_inv, forwarded, gave_up, channels in *; simpl in *.
  unfold Run, runBigIPDriver, os_FindProcess, pid_rendezvous,
      bufio_NewScanner, cmd_StderrPipe in HR, HD; simpl in *.
  split_pcs rp dp.
  all: repeat case_match; simplify_eq/=; try naive_solver.
  all: exfalso; apply (f_equal (fun s => length (log s))) in HD;
       simpl in HD; lia.
Qed.

(* ================================================================== *)
(** * The driver: the command line *)
(* ================================================================== *)

Example createDriverCmd_d0 :
  Args (createDriverCmd d0) =
  ["python"; "python/bigipconfigdriver.py"; "--config-file"; "/tmp/bigip-config.json"].
Proof. reflexivity. Qed.

(** C9, as stated, fails: the command name is the literal [python] of
    line 61, whatever the driver was built from; none of the settings of a
    [Driver] selects it. *)
Lemma interpreter_is_not_configured :
  ~ interpreter_is_configured /\
  Path (createDriverCmd (NewDriver "a" "b" "c"))
  = Path (createDriverCmd (NewDriver "x" "y" "z")).
Proof.
  split; [|reflexivity].
  intros (setting & Hin & Hall).
  specialize (Hall (NewDriver "a" "b" "c")).
  simpl in Hin.
  destruct Hin as [<-|[<-|[<-|[]]]]; discriminate Hall.
Qed.

(** C9 (amended): the command line of the child is exactly
    [python <driverCmd> --config-file <fname>]: the fixed command name
    [python], then the driver's [driverCmd], the literal [--config-file]
    and the driver's configuration file name; and this is the command that
    any execution of [Run] has started. *)
Theorem createDriverCmd_command_line (d : Driver) :
  Args (createDriverCmd d) = ["python"; driverCmd d; "--config-file"; fname d] /\
  Path (createDriverCmd d) = "python" /\
  (forall configFile cmd lg,
     Args (createDriverCmd (NewDriver configFile cmd lg))
     = ["python"; cmd; "--config-file"; configFile]) /\
  (forall env sched c,
     child (exec d env sched init) = Some c -> c = createDriverCmd d).
Proof.
  repeat split.
  intros env sched c Hc.
  destruct (Inv_exec d env sched) as [_ Hd].
  unfold drv_inv in Hd.
  destruct (drv_pc _); naive_solver.
Qed.

Lemma createDriverCmd_command_line_witness :
  Args (createDriverCmd d0) =
  ["python"; "python/bigipconfigdriver.py"; "--config-file"; "/tmp/bigip-config.json"] /\
  exists c, child (exec d0 env_clean (round_robin 3) init) = Some c /\
            c = createDriverCmd d0.
Proof.
  destruct (createDriverCmd_command_line d0) as (Hargs & _ & _ & Hchild).
  split; [exact Hargs|].
  eexists. split; [reflexivity|].
  apply (Hchild env_clean (round_robin 3)). reflexivity.
Defined.

(* ================================================================== *)
(** * The driver: the diagnostic lines *)
(* ================================================================== *)

Example lineLevel_samples :
  map lineLevel
      ["2017 [DEBUG] polling"; "[Warn] slow"; "[ERROR] refused";
       "[CRITICAL] lost device"; "started"; "[WARNING] slow"]
  = [DebugLevel; WarnLevel; ErrorLevel; ErrorLevel; InfoLevel; InfoLevel].
Proof. reflexivity. Qed.

(** C6, as stated, fails twice.  A line that carries two markers is logged
    once, at the level of the first marker tested: whatever level is taken
    to match [CRITICAL]], the sentence is false of ["Warn] retry, DEBUG] dump"].
    And a line whose only marker is [CRITICAL]] goes to [logger.Error]: no
    level other than the error level can be the one it is logged at. *)
Lemma lineLevel_not_as_stated :
  (~ exists critical, levels_as_stated critical) /\
  lineLevel "[CRITICAL] lost device" = ErrorLevel /\
  lineLevel "[CRITICAL] lost device" = lineLevel "[ERROR] refused".
Proof.
  split; [|split; reflexivity].
  intros (critical & H).
  destruct (H "Warn] retry, DEBUG] dump") as (_ & Hwarn & _).
  specialize (Hwarn eq_refl). discriminate Hwarn.
Qed.

(** C6 (amended): every line read from the child's error stream is
    forwarded unchanged and without fields, at the level of the first
    marker it contains in the order [DEBUG]], [Warn]], [ERROR]],
    [CRITICAL]]: debug, warn, error and again error; a line with none of
    the markers is forwarded at informational level.  One turn of the scan
    loop forwards one line, and once the loop has seen the end of the
    stream every line of the stream is in the log. *)
Theorem lines_forwarded_by_first_marker (text : string) :
  message (logLine text) = text /\ fields (logLine text) = [] /\
  level (logLine text) = lineLevel text /\
  (Contains text "DEBUG]" = true -> lineLevel text = DebugLevel) /\
  (Contains text "DEBUG]" = false -> Contains text "Warn]" = true ->
   lineLevel text = WarnLevel) /\
  (Contains text "DEBUG]" = false -> Contains text "Warn]" = false ->
   Contains text "ERROR]" = true -> lineLevel text = ErrorLevel) /\
  (Contains text "DEBUG]" = false -> Contains text "Warn]" = false ->
   Contains text "ERROR]" = false -> Contains text "CRITICAL]" = true ->
   lineLevel text = ErrorLevel) /\
  (Contains text "DEBUG]" = false -> Contains text "Warn]" = false ->
   Contains text "ERROR]" = false -> Contains text "CRITICAL]" = false ->
   lineLevel text = InfoLevel) /\
  (forall env s rest,
     drv_pc s = D_scan (text :: rest) ->
     log (runBigIPDriver env s) = logLine text :: log s /\
     drv_pc (runBigIPDriver env s) = D_scan rest /\
     halted (runBigIPDriver env s) = halted s) /\
  (forall d env sched,
     In text (StderrPipe env).1 ->
     drv_after_scan (drv_pc (exec d env sched init)) ->
     In (logLine text) (log (exec d env sched init))).
Proof.
  unfold lineLevel.
  repeat split; try (intros; repeat case_match; congruence).
  1-3: match goal with
       | Hpc : drv_pc _ = _ |- _ => unfold runBigIPDriver; rewrite Hpc; reflexivity
       end.
  intros d env sched Hin Hafter.
  pose proof (scan_inv_exec d env sched) as Hs. unfold scan_inv in Hs.
  apply list_elem_of_In in Hin.
  destruct (drv_pc (exec d env sched init)); try done;
    rewrite Forall_forall in Hs; by apply Hs.
Qed.

Lemma lines_forwarded_by_first_marker_witness :
  lineLevel "[CRITICAL] lost device" = ErrorLevel /\
  lineLevel "[Warn] slow" = WarnLevel /\
  lineLevel "started" = InfoLevel /\
  log (runBigIPDriver env_clean
         (set_drv (D_scan ["[ERROR] refused"]) init))
  = [mkLog ErrorLevel "[ERROR] refused" []].
Proof.
  split; [|split; [|split]].
  - destruct (lines_forwarded_by_first_marker "[CRITICAL] lost device")
      as (_ & _ & _ & _ & _ & _ & H & _).
    apply H; reflexivity.
  - destruct (lines_forwarded_by_first_marker "[Warn] slow")
      as (_ & _ & _ & _ & H & _).
    apply H; reflexivity.
  - destruct (lines_forwarded_by_first_marker "started")
      as (_ & _ & _ & _ & _ & _ & _ & H & _).
    apply H; reflexivity.
  - destruct (lines_forwarded_by_first_marker "[ERROR] refused")
      as (_ & _ & _ & _ & _ & _ & _ & _ & H & _).
    destruct (H env_clean (set_drv (D_scan ["[ERROR] refused"]) init) [])
      as (Hlog & _); [reflexivity|].
    exact Hlog.
Defined.

(* ================================================================== *)
(** * The driver: shutdown *)
(* ================================================================== *)

Lemma Run_never_halts d env s : halted (Run d env s) = halted s.
Proof.
  unfold Run, os_FindProcess, pid_rendezvous, bufio_NewScanner, cmd_StderrPipe.
  repeat case_match; reflexivity.
Qed.

(** The process ends in one of three ways: the fatal log of line 85, a
    fatal log of lines 113-120, or the panic of the scanner over the nil
    reader. *)
Lemma halted_causes d env sched :
  halted (exec d env sched init) = true ->
  (exists e, Start env = Some e /\
     head (log (exec d env sched init))
     = Some (mkLog FatalLevel "f5router-driver-failed-start" [ZError e])) \/
  (Start env = None /\
   exists entry, exit_entry (Wait env) = Some entry /\
     head (log (exec d env sched init)) = Some entry) \/
  (Start env = None /\ (StderrPipe env).2 <> None /\
   drv_pc (exec d env sched init) = D_scan_nil).
Proof.
  intros Hh. destruct (Inv_exec d env sched) as [_ Hd].
  pose proof (pipe_inv_exec d env sched) as Hp.
  unfold drv_inv in Hd. unfold pipe_inv in Hp.
  destruct (drv_pc _); destruct_and?; try congruence.
  - left. auto.
  - right. left. auto.
  - right. right. auto.
Qed.

Lemma halted_cause d env sched :
  (StderrPipe env).2 = None ->
  halted (exec d env sched init) = true ->
  (exists e, Start env = Some e /\
     head (log (exec d env sched init))
     = Some (mkLog FatalLevel "f5router-driver-failed-start" [ZError e])) \/
  (Start env = None /\
   exists entry, exit_entry (Wait env) = Some entry /\
     head (log (exec d env sched init)) = Some entry).
Proof.
  intros Hpipe Hh.
  destruct (halted_causes d env sched Hh) as [H|[H|(_ & H & _)]]; auto.
  by destruct H.
Qed.

Lemma returned_nil_cause d env sched :
  run_pc (exec d env sched init) = R_return None ->
  clean_shutdown env /\ forwarded env (exec d env sched init) /\
  halted (exec d env sched init) = false.
Proof.
  intros Hr. destruct (Inv_exec d env sched) as [Hrun Hdrv].
  pose proof (pipe_inv_exec d env sched) as Hp.
  unfold run_inv in Hrun. rewrite Hr in Hrun.
  destruct Hrun as (Hafter & Hfwd & Hdone).
  unfold drv_inv, channels in Hdrv. rewrite Hdone in Hdrv.
  unfold pipe_inv in Hp.
  assert ((StderrPipe env).2 = None /\ Start env = None /\ Wait env = WaitNil /\
          halted (exec d env sched init) = false) as (? & ? & ? & ?).
  { destruct (drv_pc _); destruct_and?; simplify_eq; done. }
  repeat split; try done.
  destruct Hfwd as (sig & ? & ? & ? & ?). by exists sig.
Qed.

(** The goroutine of [env_clean] runs to its end before [Run] has looked
    at [signals]: the child has exited with status zero, [done] is closed
    and nothing has been sent.  Five steps of [Run] later the signal has
    been sent to the pid of the child that is gone, and [Run] has returned
    [nil]. *)
Example early_exit :
  let s1 := exec d0 env_clean (RunThread :: repeat DriverThread 10) init in
  let s2 := exec d0 env_clean (repeat RunThread 5) s1 in
  drv_pc s1 = D_returned /\ done_closed s1 = true /\ sent s1 = [] /\
  In normal_exit_entry (log s1) /\
  run_pc s2 = R_return None /\ sent s2 = [(4242, SIGTERM)].
Proof. vm_compute. intuition. Qed.




Example crash_is_fatal :
  head (log (exec d0 env_crash (round_robin (fuel env_crash)) init))
  = Some (mkLog FatalLevel "f5router-driver-exited" [ZInt "exit-status" 1]).
Proof. reflexivity. Qed.

Example kill_is_fatal :
  head (log (exec d0 env_killed (round_robin (fuel env_killed)) init))
  = Some (mkLog FatalLevel "f5router-driver-signaled-to-stop"
            [ZString "signal" "9 - killed"]).
Proof. reflexivity. Qed.

Example clean_run_log :
  rev (map message (log (exec d0 env_clean (round_robin (fuel env_clean)) init)))
  = ["f5router-driver-starting"; "f5router-driver-process-pid";
     "2017 [DEBUG] polling"; "f5router-driver-started"; "started";
     "[CRITICAL] lost device"; "f5router-driver-exited-normally";
     "f5router-driver-stopped"].
Proof. reflexivity. Qed.

(** C7: the only signal that any execution of [Run] ever sends is the one
    it received on [signals], unchanged, and it sends it to the pid of the
    child it started; once [Run] is past line 148 with a process handle,
    exactly that one call of [proc.Signal] has been made. *)
Theorem Run_forwards_signal_verbatim (d : Driver) (env : Env) (sched : list Thread) :
  (forall pid sig,
     In (pid, sig) (sent (exec d env sched init)) ->
     signals env = Some sig /\ pid = Pid env /\
     child (exec d env sched init) = Some (createDriverCmd d)) /\
  (forall proc pid sig,
     halted (exec d env sched init) = false ->
     run_pc (exec d env sched init) = R_signal proc pid sig ->
     signals env = Some sig /\
     sent (step d env RunThread (exec d env sched init)) = [(Pid env, sig)]) /\
  (forall sig,
     signals env = Some sig -> FindProcess_err env (Pid env) = None ->
     run_pc (exec d env sched init) = R_wait_done \/
     (exists r, run_pc (exec d env sched init) = R_return r) ->
     sent (exec d env sched init) = [(Pid env, sig)]).
Proof.
  destruct (Inv_exec d env sched) as [Hrun Hdrv].
  set (s := exec d env sched init) in *.
  unfold run_inv, forwarded, gave_up in Hrun.
  split; [|split].
  - intros pid sig Hin.
    assert (drv_after_send (drv_pc s) /\
            exists sig', signals env = Some sig' /\ sent s = [(Pid env, sig')])
      as (Hafter & sig' & Hsig & Hsent).
    { destruct (run_pc s) as [| |?|?|? ?|? ? ?| |[?|]];
        destruct_and?; try (rewrite_sent_nil Hin); try naive_solver.
      match goal with
      | Hg : exists _, signals env = Some _ /\ _ |- _ =>
          destruct Hg as (sig' & Hsig' & [(_ & Hnil & _)|(_ & _ & Hsent & _)])
      end.
      - rewrite Hnil in Hin. destruct Hin.
      - eauto. }
    rewrite Hsent in Hin. destruct Hin as [[= -> ->]|[]].
    repeat split; [done|].
    unfold drv_inv in Hdrv. destruct (drv_pc s); simpl in Hafter; naive_solver.
  - intros proc pid sig Hh Hpc. rewrite Hpc in Hrun.
    destruct Hrun as (-> & -> & Hsig & _ & _ & Hsent).
    split; [done|].
    unfold step. rewrite Hh. unfold Run. rewrite Hpc. simpl.
    destruct (Signal_err _ _ _); simpl; by rewrite Hsent.
  - intros sig Hsig Hfind [Hpc|[r Hpc]]; rewrite Hpc in Hrun.
    + naive_solver.
    + destruct r as [e|]; naive_solver.
Qed.

Lemma Run_forwards_signal_verbatim_witness :
  In (4242, SIGTERM) (sent (exec d0 env_clean (round_robin 7) init)) /\
  signals env_clean = Some SIGTERM /\
  sent (exec d0 env_clean (round_robin (fuel env_clean)) init) = [(4242, SIGTERM)] /\
  sent (step d0 env_finished RunThread (exec d0 env_finished (round_robin 6) init))
  = [(4242, SIGTERM)].
Proof.
  assert (In (4242, SIGTERM) (sent (exec d0 env_clean (round_robin 7) init))) as Hin.
  { vm_compute. left. reflexivity. }
  split; [exact Hin|].
  destruct (Run_forwards_signal_verbatim d0 env_clean (round_robin 7)) as (H1 & _ & _).
  destruct (H1 4242 SIGTERM Hin) as (Hsig & _ & _).
  split; [exact Hsig|]. split.
  - destruct (Run_forwards_signal_verbatim d0 env_clean (round_robin (fuel env_clean)))
      as (_ & _ & H3).
    apply (H3 SIGTERM); [reflexivity|reflexivity|].
    right. exists None. reflexivity.
  - destruct (Run_forwards_signal_verbatim d0 env_finished (round_robin 6))
      as (_ & H2 & _).
    destruct (H2 (mkProcess 4242) 4242 SIGTERM) as (_ & Hsent);
      [reflexivity|reflexivity|].
    exact Hsent.
Defined.

Lemma returned_error_cause d env sched e :
  run_pc (exec d env sched init) = R_return (Some e) ->
  gave_up env (exec d env sched init) e.
Proof.
  intros Hr. destruct (Inv_exec d env sched) as [Hrun _].
  unfold run_inv in Hrun. rewrite Hr in Hrun. tauto.
Qed.

(** C8: when [Run], in a process that is still alive, stands at the lookup
    of the child and the lookup fails, or stands at the delivery of the
    signal and the delivery fails, its next step logs one warning that
    carries the error and returns that very error; the hosting process is
    not terminated by it, and [Run] stays returned.  No step of [Run] ever
    terminates the process, and whenever an execution has [Run] returned
    with an error, that error is the one of the lookup or of the
    delivery. *)
Theorem Run_returns_delivery_error (d : Driver) (env : Env) :
  (forall s e,
     halted s = false ->
     (exists pid sig,
        run_pc s = R_find pid sig /\ FindProcess_err env pid = Some e) \/
     (exists proc pid sig,
        run_pc s = R_signal proc pid sig /\
        Signal_err env (Process_Pid proc) sig = Some e) ->
     run_pc (step d env RunThread s) = R_return (Some e) /\
     halted (step d env RunThread s) = false /\
     (exists entry,
        log (step d env RunThread s) = entry :: log s /\
        level entry = WarnLevel /\ In (ZError e) (fields entry)) /\
     step d env RunThread (step d env RunThread s) = step d env RunThread s) /\
  (forall s, halted (Run d env s) = halted s) /\
  (forall sched e,
     run_pc (exec d env sched init) = R_return (Some e) ->
     gave_up env (exec d env sched init) e).
Proof.
  split; [|split; [apply Run_never_halts|apply returned_error_cause]].
  intros s e Hh Hcase.
  assert (step d env RunThread s = Run d env s) as ->.
  { unfold step. by rewrite Hh. }
  assert (run_pc (Run d env s) = R_return (Some e) /\
          exists entry,
            log (Run d env s) = entry :: log s /\
            level entry = WarnLevel /\ In (ZError e) (fields entry))
    as (Hpc' & Hlog).
  { destruct Hcase as [(pid & sig & Hpc & Herr)|(proc & pid & sig & Hpc & Herr)];
      unfold Run, os_FindProcess; rewrite Hpc; simpl; rewrite Herr; simpl;
      (split; [done|]); eexists; repeat split; simpl; auto. }
  pose proof (Run_never_halts d env s) as Hh'. rewrite Hh in Hh'.
  repeat split; try done.
  unfold step. rewrite Hh'. unfold Run at 1. by rewrite Hpc'.
Qed.

Lemma Run_returns_delivery_error_witness :
  run_pc (exec d0 env_lost (round_robin 5 ++ [RunThread]) init)
  = R_return (Some "OpenProcess: invalid parameter") /\
  run_pc (exec d0 env_finished (round_robin 6 ++ [RunThread]) init)
  = R_return (Some "os: process already finished") /\
  halted (exec d0 env_finished (round_robin 6 ++ [RunThread]) init) = false /\
  gave_up env_lost (exec d0 env_lost (round_robin (fuel env_lost)) init)
    "OpenProcess: invalid parameter".
Proof.
  destruct (Run_returns_delivery_error d0 env_lost) as (Hlost & _ & Hcause).
  destruct (Run_returns_delivery_error d0 env_finished) as (Hfin & _ & _).
  rewrite !exec_app.
  split; [|split; [|split]].
  - destruct (Hlost (exec d0 env_lost (round_robin 5) init)
                "OpenProcess: invalid parameter") as (H & _).
    + reflexivity.
    + left. exists 4242, SIGTERM. split; reflexivity.
    + exact H.
  - destruct (Hfin (exec d0 env_finished (round_robin 6) init)
                "os: process already finished") as (H & _).
    + reflexivity.
    + right. exists (mkProcess 4242), 4242, SIGTERM. split; reflexivity.
    + exact H.
  - destruct (Hfin (exec d0 env_finished (round_robin 6) init)
                "os: process already finished") as (_ & H & _).
    + reflexivity.
    + right. exists (mkProcess 4242), 4242, SIGTERM. split; reflexivity.
    + exact H.
  - apply Hcause. reflexivity.
Defined.

(* ================================================================== *)
(** * The order of strings *)
(* ================================================================== *)

Lemma ascii_compare_lt_trans a b c :
  Stdlib.Strings.Ascii.compare a b = Lt ->
  Stdlib.Strings.Ascii.compare b c = Lt ->
  Stdlib.Strings.Ascii.compare a c = Lt.
Proof.
  unfold Stdlib.Strings.Ascii.compare. rewrite !N.compare_lt_iff. lia.
Qed.

Lemma ascii_compare_refl a : Stdlib.Strings.Ascii.compare a a = Eq.
Proof. unfold Stdlib.Strings.Ascii.compare. apply N.compare_refl. Qed.

Lemma string_compare_refl s : Stdlib.Strings.String.compare s s = Eq.
Proof.
  induction s as [|a s IH]; simpl; [done|]. by rewrite ascii_compare_refl.
Qed.

Lemma string_compare_lt_trans s1 s2 s3 :
  Stdlib.Strings.String.compare s1 s2 = Lt ->
  Stdlib.Strings.String.compare s2 s3 = Lt ->
  Stdlib.Strings.String.compare s1 s3 = Lt.
Proof.
  revert s2 s3. induction s1 as [|a s1 IH]; intros [|b s2] [|c s3]; simpl; try done.
  destruct (Stdlib.Strings.Ascii.compare a b) eqn:Hab; try done;
    destruct (Stdlib.Strings.Ascii.compare b c) eqn:Hbc; try done; intros H12 H23.
  - apply Stdlib.Strings.Ascii.compare_eq_iff in Hab, Hbc. subst.
    rewrite ascii_compare_refl. eauto.
  - apply Stdlib.Strings.Ascii.compare_eq_iff in Hab. subst. by rewrite Hbc.
  - apply Stdlib.Strings.Ascii.compare_eq_iff in Hbc. subst. by rewrite Hab.
  - by rewrite (ascii_compare_lt_trans a b c).
Qed.

Lemma string_lt_trans a b c :
  string_lt a b = true -> string_lt b c = true -> string_lt a c = true.
Proof.
  unfold string_lt, Stdlib.Strings.String.ltb.
  destruct (Stdlib.Strings.String.compare a b) eqn:Hab; try done.
  destruct (Stdlib.Strings.String.compare b c) eqn:Hbc; try done.
  by rewrite (string_compare_lt_trans a b c).
Qed.

Lemma string_lt_irrefl a : string_lt a a = false.
Proof. unfold string_lt, Stdlib.Strings.String.ltb. by rewrite string_compare_refl. Qed.

Lemma string_lt_asym a b : string_lt a b = true -> string_lt b a = false.
Proof.
  intros Hab. destruct (string_lt b a) eqn:Hba; [|done].
  pose proof (string_lt_trans _ _ _ Hab Hba) as H.
  by rewrite string_lt_irrefl in H.
Qed.

Lemma string_lt_trichotomy a b :
  string_lt a b = true \/ a = b \/ string_lt b a = true.
Proof.
  unfold string_lt, Stdlib.Strings.String.ltb.
  rewrite (Stdlib.Strings.String.compare_antisym b a).
  destruct (Stdlib.Strings.String.compare a b) eqn:Hab; simpl; auto.
  right. left. by apply Stdlib.Strings.String.compare_eq_iff.
Qed.

(* ================================================================== *)
(** * The comparators *)
(* ================================================================== *)

Lemma routeConfigs_not_after a b :
  not_after routeConfigs_Less a b <-> routeConfig_le a b.
Proof.
  unfold not_after, routeConfigs_Less, routeConfig_le.
  set (na := ServiceName (Backend (Item a))). set (nb := ServiceName (Backend (Item b))).
  set (pa := ServicePort (Backend (Item a))). set (pb := ServicePort (Backend (Item b))).
  rewrite orb_false_iff, andb_false_iff, bool_decide_eq_false, Z.ltb_ge.
  split.
  - intros [Hlt Hor].
    destruct (string_lt_trichotomy na nb) as [?|[?|?]]; [by left| |congruence].
    right. split; [done|]. destruct Hor as [?|?]; [congruence|done].
  - intros [Hlt|[Heq Hle]].
    + split; [by apply string_lt_asym|]. left. intros ->.
      by rewrite string_lt_irrefl in Hlt.
    + rewrite Heq. split; [apply string_lt_irrefl|by right].
Qed.

Lemma rules_not_after a b : not_after rules_Less a b <-> rule_le a b.
Proof.
  unfold not_after, rules_Less, rule_le. split.
  - intros Hlt. destruct (string_lt_trichotomy (FullURI a) (FullURI b)) as [?|[?|?]];
      [by left|by right|congruence].
  - intros [Hlt| ->]; [by apply string_lt_asym|apply string_lt_irrefl].
Qed.

#[local] Instance routeConfig_le_trans : Transitive routeConfig_le.
Proof.
  intros a b c [Hab|[Hab Hp]] [Hbc|[Hbc Hq]]; unfold routeConfig_le.
  - left. eapply string_lt_trans; eauto.
  - left. by rewrite <- Hbc.
  - left. by rewrite Hab.
  - right. split; [congruence|lia].
Qed.

#[local] Instance routeConfig_le_total : Total routeConfig_le.
Proof.
  intros a b. unfold routeConfig_le.
  destruct (string_lt_trichotomy (ServiceName (Backend (Item a)))
              (ServiceName (Backend (Item b)))) as [?|[Heq|?]]; [by (left; left)| |by (right; left)].
  destruct (Z.le_ge_cases (ServicePort (Backend (Item a)))
              (ServicePort (Backend (Item b)))) as [Hle|Hle].
  - left. right. by split.
  - right. right. by split.
Qed.

#[local] Instance rule_le_trans : Transitive rule_le.
Proof.
  intros a b c [Hab|Hab] [Hbc|Hbc]; unfold rule_le.
  - left. eapply string_lt_trans; eauto.
  - left. by rewrite <- Hbc.
  - left. by rewrite Hab.
  - right. congruence.
Qed.

#[local] Instance rule_le_total : Total rule_le.
Proof.
  intros a b. unfold rule_le.
  destruct (string_lt_trichotomy (FullURI a) (FullURI b)) as [?|[?|?]]; auto.
Qed.

#[local] Instance routeConfigs_not_after_trans :
  Transitive (not_after routeConfigs_Less).
Proof. intros a b c. rewrite !routeConfigs_not_after. apply transitivity. Qed.

#[local] Instance routeConfigs_not_after_total : Total (not_after routeConfigs_Less).
Proof. intros a b. rewrite !routeConfigs_not_after. apply total, _. Qed.

#[local] Instance rules_not_after_trans : Transitive (not_after rules_Less).
Proof. intros a b c. rewrite !rules_not_after. apply transitivity. Qed.

#[local] Instance rules_not_after_total : Total (not_after rules_Less).
Proof. intros a b. rewrite !rules_not_after. apply total, _. Qed.

Lemma routeConfig_le_antisym a b :
  routeConfig_le a b -> routeConfig_le b a -> routeKey a = routeKey b.
Proof.
  unfold routeConfig_le, routeKey.
  intros [Hab|[Hab Hp]] [Hba|[Hba Hq]].
  - apply string_lt_asym in Hab. congruence.
  - rewrite Hba, string_lt_irrefl in Hab. done.
  - rewrite Hab, string_lt_irrefl in Hba. done.
  - f_equal; [done|lia].
Qed.

Lemma rule_le_antisym a b : rule_le a b -> rule_le b a -> FullURI a = FullURI b.
Proof.
  intros [Hab|Hab] [Hba|Hba]; try done.
  apply string_lt_asym in Hab. congruence.
Qed.

(** ** [sort.Sort] *)

Lemma StronglySorted_ascending {A} (R : A -> A -> Prop) (l : list A) :
  StronglySorted R l -> ascending R l.
Proof.
  induction 1 as [|x l Hl IH Hx]; intros i j a b Hij Hi Hj.
  - by rewrite lookup_nil in Hi.
  - destruct j as [|j]; [lia|]. simpl in Hj.
    destruct i as [|i]; simpl in Hi.
    + simplify_eq. rewrite Forall_forall in Hx. apply Hx.
      by eapply list_elem_of_lookup_2.
    + apply (IH i j); [lia|done..].
Qed.

Lemma StronglySorted_weaken {A} (R1 R2 : A -> A -> Prop) (l : list A) :
  (forall a b, R1 a b -> R2 a b) -> StronglySorted R1 l -> StronglySorted R2 l.
Proof.
  intros HR. induction 1 as [|x l Hl IH Hx]; constructor; [done|].
  eapply Forall_impl; eauto.
Qed.

Lemma sort_Sort_routeConfigs (l : list routeConfig) :
  StronglySorted routeConfig_le (sort_Sort routeConfigs_Less l) /\
  sort_Sort routeConfigs_Less l ≡ₚ l.
Proof.
  split; [|apply merge_sort_Permutation].
  eapply StronglySorted_weaken; [|apply StronglySorted_merge_sort; apply _].
  intros a b. apply routeConfigs_not_after.
Qed.

Lemma sort_Sort_rules (l : list rule) :
  StronglySorted rule_le (sort_Sort rules_Less l) /\
  sort_Sort rules_Less l ≡ₚ l.
Proof.
  split; [|apply merge_sort_Permutation].
  eapply StronglySorted_weaken; [|apply StronglySorted_merge_sort; apply _].
  intros a b. apply rules_not_after.
Qed.

(** Which sorting algorithm stands behind [sort.Sort] does not matter to a
    list whose entries differ in their keys: every permutation of it that
    is sorted by [Less] is the one [sort_Sort] returns. *)
Lemma sort_Sort_routeConfigs_unique (l out : list routeConfig) :
  agreeing routeKey l -> out ≡ₚ l ->
  Sorted (not_after routeConfigs_Less) out ->
  out = sort_Sort routeConfigs_Less l.
Proof.
  intros Hl Hp Hs.
  apply (StronglySorted_unique_strong (not_after routeConfigs_Less)).
  - intros x y Hx Hy Hxy Hyx. rewrite Hp in Hx.
    unfold sort_Sort in Hy. rewrite merge_sort_Permutation in Hy.
    apply Hl; [done..|].
    apply routeConfig_le_antisym; by apply routeConfigs_not_after.
  - apply Sorted_StronglySorted; [apply _|exact Hs].
  - apply StronglySorted_merge_sort; apply _.
  - unfold sort_Sort. by rewrite Hp, merge_sort_Permutation.
Qed.

Lemma sort_Sort_rules_unique (l out : list rule) :
  agreeing FullURI l -> out ≡ₚ l ->
  Sorted (not_after rules_Less) out ->
  out = sort_Sort rules_Less l.
Proof.
  intros Hl Hp Hs.
  apply (StronglySorted_unique_strong (not_after rules_Less)).
  - intros x y Hx Hy Hxy Hyx. rewrite Hp in Hx.
    unfold sort_Sort in Hy. rewrite merge_sort_Permutation in Hy.
    apply Hl; [done..|].
    apply rule_le_antisym; by apply rules_not_after.
  - apply Sorted_StronglySorted; [apply _|exact Hs].
  - apply StronglySorted_merge_sort; apply _.
  - unfold sort_Sort. by rewrite Hp, merge_sort_Permutation.
Qed.

(** [TestRouteConfigSort] and [TestRulesSort]. *)
Example TestRouteConfigSort :
  sort_Sort routeConfigs_Less test_routeconfigs = test_routeconfigs_expected.
Proof. vm_compute. reflexivity. Qed.

Example TestRulesSort : sort_Sort rules_Less test_rules = test_rules_expected.
Proof. vm_compute. reflexivity. Qed.

(** C4: the entries of every snapshot are those handed to the serializer,
    the RouteConfigs sorted with [routeConfigs.Less] and the Rules with
    [rules.Less]; of any two RouteConfigs the earlier has the smaller
    [ServiceName] or, the names being equal, a [ServicePort] that is not
    greater, and of any two Rules the earlier has the smaller or the same
    [FullURI].  This holds of any two lists, hence of the snapshot of every
    model. *)
Theorem snapshot_entries_sorted (rcs : list routeConfig) (rls : list rule) :
  snap_routes (snapshot_from rcs rls) = sort_Sort routeConfigs_Less rcs /\
  snap_rules (snapshot_from rcs rls) = sort_Sort rules_Less rls /\
  sort_Sort routeConfigs_Less rcs ≡ₚ rcs /\
  sort_Sort rules_Less rls ≡ₚ rls /\
  ascending routeConfig_le (sort_Sort routeConfigs_Less rcs) /\
  ascending rule_le (sort_Sort rules_Less rls) /\
  (forall m, ascending routeConfig_le (snap_routes (snapshot m)) /\
             ascending rule_le (snap_rules (snapshot m))).
Proof.
  repeat split; try apply merge_sort_Permutation.
  all: apply StronglySorted_ascending;
    first [apply sort_Sort_routeConfigs | apply sort_Sort_rules].
Qed.

Lemma snapshot_entries_sorted_witness :
  routeConfig_le (rc "bar" 80) (rc "baz" 1) /\
  routeConfig_le (rc "foo" 80) (rc "foo" 8080) /\
  rule_le (l7rule "bar") (l7rule "foo").
Proof.
  destruct (snapshot_entries_sorted test_routeconfigs test_rules)
    as (_ & _ & _ & _ & Hrc & Hrl & _).
  split; [|split].
  - apply (Hrc 1%nat 2%nat); [lia|reflexivity|reflexivity].
  - apply (Hrc 6%nat 7%nat); [lia|reflexivity|reflexivity].
  - apply (Hrl 0%nat 9%nat); [lia|reflexivity|reflexivity].
Defined.

(* ================================================================== *)
(** * Maps whose entries are filed under their own key *)
(* ================================================================== *)

Section keyed.
Context {K V : Type} `{Countable K} (key : V -> K).

#[local] Abbreviation filed := (filed key).
#[local] Abbreviation put := (put key).
#[local] Abbreviation drop := (drop key).
#[local] Abbreviation agreeing := (agreeing key).

Lemma filed_put m v : filed m -> filed (put m v).
Proof.
  intros Hm k w. unfold put. rewrite lookup_insert.
  case_decide; [naive_solver|apply Hm].
Qed.

Lemma filed_drop m v : filed m -> filed (drop m v).
Proof.
  intros Hm k w. unfold drop. rewrite lookup_delete.
  case_decide; [done|apply Hm].
Qed.

Lemma filed_fold_put l m : filed m -> filed (fold_left put l m).
Proof. revert m. induction l; simpl; auto using filed_put. Qed.

Lemma filed_fold_drop l m : filed m -> filed (fold_left drop l m).
Proof. revert m. induction l; simpl; auto using filed_drop. Qed.

Lemma filed_values_agree m (l : list V) :
  filed m -> l ≡ₚ (map_to_list m).*2 -> agreeing l.
Proof.
  intros Hm Hl x y Hx Hy Hk.
  rewrite Hl in Hx, Hy.
  apply list_elem_of_fmap in Hx as ([k1 x'] & -> & Hx).
  apply list_elem_of_fmap in Hy as ([k2 y'] & -> & Hy).
  apply elem_of_map_to_list in Hx, Hy. simpl in *.
  pose proof (Hm _ _ Hx). pose proof (Hm _ _ Hy). congruence.
Qed.

Lemma fold_put_absent l m k :
  (forall v, v ∈ l -> key v <> k) -> fold_left put l m !! k = m !! k.
Proof.
  revert m. induction l as [|a l IH]; intros m Hl; simpl; [done|].
  rewrite IH by (intros v Hv; apply Hl; by right).
  unfold put. apply lookup_insert_ne, Hl. by left.
Qed.

Lemma fold_put_present l m v :
  agreeing l -> v ∈ l -> fold_left put l m !! key v = Some v.
Proof.
  revert m. induction l as [|a l IH]; intros m Hl Hv; simpl.
  { by apply elem_of_nil in Hv. }
  assert (agreeing l) as Hl'.
  { intros x y Hx Hy. apply Hl; by right. }
  destruct (decide (Exists (fun w => key w = key v) l)) as [Hex|Hnex].
  - apply Exists_exists in Hex as (w & Hw & Hk).
    assert (w = v) as -> by (apply Hl; [by right|done|done]).
    by apply IH.
  - rewrite fold_put_absent.
    + apply elem_of_cons in Hv as [->|Hv]; [apply lookup_insert_eq|].
      exfalso. apply Hnex, Exists_exists. eauto.
    + intros w Hw Hk. apply Hnex, Exists_exists. eauto.
Qed.

Lemma fold_put_Permutation l1 l2 m :
  agreeing l1 -> l1 ≡ₚ l2 -> fold_left put l1 m = fold_left put l2 m.
Proof.
  intros Hl1 Hp.
  assert (agreeing l2) as Hl2.
  { intros x y Hx Hy. rewrite <- Hp in Hx, Hy. by apply Hl1. }
  apply map_eq. intros k.
  destruct (decide (Exists (fun w => key w = k) l1)) as [Hex|Hnex].
  - apply Exists_exists in Hex as (w & Hw & <-).
    rewrite !fold_put_present; try done. by rewrite <- Hp.
  - rewrite !fold_put_absent; try done.
    + intros w Hw Hk. apply Hnex, Exists_exists. rewrite <- Hp in Hw. eauto.
    + intros w Hw Hk. apply Hnex, Exists_exists. eauto.
Qed.

End keyed.

(* ================================================================== *)
(** * The Config Model *)
(* ================================================================== *)

Lemma wf_empty_model : wf_model empty_model.
Proof. split; intros k v; simpl; by rewrite lookup_empty. Qed.

Lemma wf_mutate u m : wf_model m -> wf_model (mutate u m).
Proof.
  intros [Hr Hl]. unfold mutate, wf_model.
  destruct (event u); simpl; split;
    first [by apply filed_fold_put | by apply filed_fold_drop].
Qed.

Lemma wf_mutate_all us m : wf_model m -> wf_model (mutate_all us m).
Proof.
  revert m. induction us as [|u us IH]; intros m Hm; [done|].
  apply IH, wf_mutate, Hm.
Qed.

Lemma mutate_all_app us1 us2 m :
  mutate_all (us1 ++ us2) m = mutate_all us2 (mutate_all us1 m).
Proof. apply fold_left_app. Qed.

(** A run of [Add] calls files the entries they derive, one after the
    other. *)
Lemma mutate_all_Add us m :
  Forall (fun u => event u = Add) us ->
  mutate_all us m =
  {| routes := fold_left put_route (all_routes us) (routes m);
     rules := fold_left put_rule (all_rules us) (rules m) |}.
Proof.
  intros Hall. revert m. induction Hall as [|u us Hu Hus IH]; intros m.
  - by destruct m.
  - change (mutate_all (u :: us) m) with (mutate_all us (mutate u m)).
    rewrite IH. unfold mutate. rewrite Hu. simpl.
    unfold all_routes, all_rules. simpl. by rewrite !fold_left_app.
Qed.

Lemma model_ext m1 m2 :
  (forall k, routes m1 !! k = routes m2 !! k) ->
  (forall u, rules m1 !! u = rules m2 !! u) -> m1 = m2.
Proof.
  destruct m1, m2; simpl. intros Hr Hl. f_equal; by apply map_eq.
Qed.

(** Whatever order the two maps are ranged over in, the snapshot is the
    same. *)
Lemma snapshot_from_ranges m rcs rls :
  wf_model m -> ranges_over rcs (routes m) -> ranges_over rls (rules m) ->
  snapshot_from rcs rls = snapshot m.
Proof.
  intros [Hr Hl] Hrcs Hrls. unfold snapshot, snapshot_from, ranges_over in *.
  f_equal.
  - apply (StronglySorted_unique_strong routeConfig_le);
      [|apply sort_Sort_routeConfigs..|].
    + intros x y Hx Hy Hxy Hyx.
      pose proof (sort_Sort_routeConfigs rcs) as [_ Hp1].
      pose proof (sort_Sort_routeConfigs (map_to_list (routes m)).*2) as [_ Hp2].
      rewrite Hp1 in Hx. rewrite Hp2, <- Hrcs in Hy.
      apply (filed_values_agree routeKey (routes m) rcs Hr Hrcs x y Hx Hy).
      by apply routeConfig_le_antisym.
    + etrans; [apply merge_sort_Permutation|].
      etrans; [apply Hrcs|]. symmetry. apply merge_sort_Permutation.
  - apply (StronglySorted_unique_strong rule_le);
      [|apply sort_Sort_rules..|].
    + intros x y Hx Hy Hxy Hyx.
      pose proof (sort_Sort_rules rls) as [_ Hp1].
      pose proof (sort_Sort_rules (map_to_list (rules m)).*2) as [_ Hp2].
      rewrite Hp1 in Hx. rewrite Hp2, <- Hrls in Hy.
      apply (filed_values_agree FullURI (rules m) rls Hl Hrls x y Hx Hy).
      by apply rule_le_antisym.
    + etrans; [apply merge_sort_Permutation|].
      etrans; [apply Hrls|]. symmetry. apply merge_sort_Permutation.
Qed.

Lemma mutate_all_Add_Permutation us1 us2 m :
  Forall (fun u => event u = Add) us1 -> coherent us1 -> us1 ≡ₚ us2 ->
  mutate_all us1 m = mutate_all us2 m.
Proof.
  intros Hadd [Hrc Hrl] Hp.
  assert (Forall (fun u => event u = Add) us2) as Hadd2 by (by rewrite <- Hp).
  rewrite !mutate_all_Add by done. f_equal.
  - apply fold_put_Permutation; [done|]. unfold all_routes. by rewrite Hp.
  - apply fold_put_Permutation; [done|]. unfold all_rules. by rewrite Hp.
Qed.

(** C2: the bytes of a snapshot depend on the content of the model alone.
    Two well-formed models that hold the same RouteConfigs and the same
    Rules are serialized to the same bytes, in whatever order their maps
    are ranged over.  In particular, when [Add] calls that describe one
    registry state take the lock in two different orders, the two models
    are the same and so are the bytes of their snapshots. *)
Theorem serialization_is_deterministic (marshal : Snapshot -> list Byte.byte) :
  (forall m1 m2 rcs1 rls1 rcs2 rls2,
     wf_model m1 -> wf_model m2 ->
     (forall k, routes m1 !! k = routes m2 !! k) ->
     (forall u, rules m1 !! u = rules m2 !! u) ->
     ranges_over rcs1 (routes m1) -> ranges_over rls1 (rules m1) ->
     ranges_over rcs2 (routes m2) -> ranges_over rls2 (rules m2) ->
     marshal (snapshot_from rcs1 rls1) = marshal (snapshot_from rcs2 rls2)) /\
  (forall m0 us1 us2,
     wf_model m0 ->
     Forall (fun u => event u = Add) us1 -> coherent us1 -> us1 ≡ₚ us2 ->
     mutate_all us1 m0 = mutate_all us2 m0 /\
     serialize marshal (mutate_all us1 m0) = serialize marshal (mutate_all us2 m0) /\
     (forall rcs1 rls1 rcs2 rls2,
        ranges_over rcs1 (routes (mutate_all us1 m0)) ->
        ranges_over rls1 (rules (mutate_all us1 m0)) ->
        ranges_over rcs2 (routes (mutate_all us2 m0)) ->
        ranges_over rls2 (rules (mutate_all us2 m0)) ->
        marshal (snapshot_from rcs1 rls1) = marshal (snapshot_from rcs2 rls2))).
Proof.
  assert (forall m1 m2 rcs1 rls1 rcs2 rls2,
     wf_model m1 -> wf_model m2 -> m1 = m2 ->
     ranges_over rcs1 (routes m1) -> ranges_over rls1 (rules m1) ->
     ranges_over rcs2 (routes m2) -> ranges_over rls2 (rules m2) ->
     marshal (snapshot_from rcs1 rls1) = marshal (snapshot_from rcs2 rls2)) as Hsame.
  { intros m1 m2 rcs1 rls1 rcs2 rls2 Hwf1 Hwf2 <- H1 H2 H3 H4.
    by rewrite (snapshot_from_ranges m1 rcs1 rls1), (snapshot_from_ranges m1 rcs2 rls2). }
  split.
  - intros m1 m2 rcs1 rls1 rcs2 rls2 Hwf1 Hwf2 Hr Hl.
    apply Hsame; try done. by apply model_ext.
  - intros m0 us1 us2 Hwf Hadd Hco Hp.
    pose proof (mutate_all_Add_Permutation us1 us2 m0 Hadd Hco Hp) as Heq.
    split; [done|]. split; [by rewrite Heq|].
    intros rcs1 rls1 rcs2 rls2. apply Hsame; try done; by apply wf_mutate_all.
Qed.

Lemma coherent_foo_bar : coherent [add_foo; add_bar].
Proof.
  split; intros x y Hx Hy Hk; simpl in Hx, Hy;
    rewrite !elem_of_cons, elem_of_nil in Hx, Hy;
    destruct Hx as [->|[->|[]]], Hy as [->|[->|[]]]; done.
Qed.

Lemma serialization_is_deterministic_witness :
  sample_marshal (snapshot_from [rc_foo; rc_bar] [rule_bar; rule_foo])
  = sample_marshal (snapshot_from [rc_bar; rc_foo] [rule_foo; rule_bar]) /\
  mutate_all [add_foo; add_bar] empty_model = mutate_all [add_bar; add_foo] empty_model.
Proof.
  destruct (serialization_is_deterministic sample_marshal) as [Hsame Hperm].
  assert (wf_model model_foo_bar) as Hwf by apply wf_mutate_all, wf_empty_model.
  assert ((map_to_list (routes model_foo_bar)).*2 = [rc_foo; rc_bar]) as Hrc
    by (vm_compute; reflexivity).
  assert ((map_to_list (rules model_foo_bar)).*2 = [rule_foo; rule_bar]) as Hrl
    by (vm_compute; reflexivity).
  split.
  - apply (Hsame model_foo_bar model_foo_bar
             [rc_foo; rc_bar] [rule_bar; rule_foo]
             [rc_bar; rc_foo] [rule_foo; rule_bar] Hwf Hwf);
      [intros k; reflexivity|intros u; reflexivity|..]; unfold ranges_over.
    + rewrite Hrc. apply Permutation_refl.
    + rewrite Hrl. apply Permutation_swap.
    + rewrite Hrc. apply Permutation_swap.
    + rewrite Hrl. apply Permutation_refl.
  - apply Hperm.
    + apply wf_empty_model.
    + repeat constructor.
    + apply coherent_foo_bar.
    + apply Permutation_swap.
Defined.

(* ================================================================== *)
(** * Construction of the aggregator *)
(* ================================================================== *)

Lemma is_empty_true s : is_empty s = true <-> s = "".
Proof. apply bool_decide_eq_true. Qed.

Lemma is_empty_false s : is_empty s = false <-> s <> "".
Proof. apply bool_decide_eq_false. Qed.

Lemma verifyConfig_None c :
  verifyConfig c = None <->
  URL (BigIP c) <> "" /\ User (BigIP c) <> "" /\ Pass (BigIP c) <> "" /\
  Partitions (BigIP c) <> [] /\ ExternalAddr (BigIP c) <> "".
Proof.
  unfold verifyConfig.
  repeat (case_match; [split; [done|];
    match goal with
    | H : is_empty _ = true |- _ => apply is_empty_true in H
    | H : bool_decide _ = true |- _ => apply bool_decide_eq_true in H
    end; tauto|]).
  repeat match goal with
    | H : is_empty _ = false |- _ => apply is_empty_false in H
    | H : bool_decide _ = false |- _ => apply bool_decide_eq_false in H
    end.
  tauto.
Qed.

(** [TestBadConfig]: a nil configuration is refused, so is the default
    configuration and each of the four that still miss a setting; the
    complete one is accepted. *)
Example TestBadConfig (marshal : Snapshot -> list Byte.byte) :
  (NewF5Router marshal "router-test" None []).1 = None /\
  Forall (fun c => (NewF5Router marshal "router-test" (Some c) []).1 = None /\
                   (NewF5Router marshal "router-test" (Some c) []).2 <> None)
         [DefaultConfig; bad1; bad2; bad3; bad4] /\
  (NewF5Router marshal "router-test" (Some makeConfig) []).1 <> None /\
  (NewF5Router marshal "router-test" (Some makeConfig) []).2 = None.
Proof. repeat split; repeat constructor; done. Qed.

(** C3: [NewF5Router] returns an error and no aggregator as soon as one of
    the management URL, the user name, the password, the partition list and
    the external address is empty, whichever it is and whatever the others
    hold; when the five are non-empty it returns an aggregator and no
    error. *)
Theorem NewF5Router_validates (marshal : Snapshot -> list Byte.byte)
    (logger : Logger) (c : Config) (writer : list (list Byte.byte)) :
  (URL (BigIP c) = "" \/ User (BigIP c) = "" \/ Pass (BigIP c) = "" \/
   Partitions (BigIP c) = [] \/ ExternalAddr (BigIP c) = "" ->
   exists err, NewF5Router marshal logger (Some c) writer = (None, Some err)) /\
  (URL (BigIP c) <> "" -> User (BigIP c) <> "" -> Pass (BigIP c) <> "" ->
   Partitions (BigIP c) <> [] -> ExternalAddr (BigIP c) <> "" ->
   exists r, NewF5Router marshal logger (Some c) writer = (Some r, None) /\
             cfg r = c /\ model r = empty_model /\ settled r /\
             written r = serialize marshal empty_model :: writer).
Proof.
  unfold NewF5Router. split.
  - intros Hempty. destruct (verifyConfig c) as [err|] eqn:Hv; [by exists err|].
    apply verifyConfig_None in Hv. tauto.
  - intros H1 H2 H3 H4 H5.
    assert (verifyConfig c = None) as -> by (by apply verifyConfig_None).
    eexists. repeat split.
Qed.

Lemma NewF5Router_validates_witness :
  (exists err, NewF5Router sample_marshal "router-test" (Some bad3) []
               = (None, Some err)) /\
  (exists r, NewF5Router sample_marshal "router-test" (Some makeConfig) []
             = (Some r, None) /\ r = router0).
Proof.
  split.
  - destruct (NewF5Router_validates sample_marshal "router-test" bad3 []) as [H _].
    apply H. right. right. right. left. reflexivity.
  - destruct (NewF5Router_validates sample_marshal "router-test" makeConfig [])
      as [_ H].
    destruct H as (r & Hr & Hcfg & Hmodel & [Hdirty Hflight] & Hwritten);
      try discriminate.
    exists r. split; [exact Hr|].
    destruct r; simpl in *. unfold router0. congruence.
Defined.

(* ================================================================== *)
(** * The coalescing flush *)
(* ================================================================== *)

Section Coalescing.
Context (marshal : Snapshot -> list Byte.byte).

Lemma run_actions_snoc acts a r :
  run_actions marshal (acts ++ [a]) r = act marshal (run_actions marshal acts r) a.
Proof. unfold run_actions. by rewrite fold_left_app. Qed.

Lemma calls_of_snoc acts a :
  calls_of (acts ++ [a]) =
  calls_of acts ++ match a with Call u => [u] | _ => [] end.
Proof. unfold calls_of. rewrite omap_app. by destruct a. Qed.

(** What a burst that starts from a settled aggregator keeps true, while
    it runs: the writes and the flushes still to be written are no more
    than the calls so far; the model is the one the calls built; and as
    long as no flush is requested, the last flush begun has sampled the
    model as it is now. *)
Lemma burst_invariant acts r0 :
  settled r0 ->
  exists new,
    written (run_actions marshal acts r0) = new ++ written r0 /\
    (length new + pending (run_actions marshal acts r0)
       <= length (calls_of acts))%nat /\
    model (run_actions marshal acts r0) = mutate_all (calls_of acts) (model r0) /\
    cfg (run_actions marshal acts r0) = cfg r0 /\
    (calls_of acts <> [] -> dirty (run_actions marshal acts r0) = false ->
     match in_flight (run_actions marshal acts r0) with
     | Some bytes => bytes = serialize marshal (model (run_actions marshal acts r0))
     | None => head new = Some (serialize marshal (model (run_actions marshal acts r0)))
     end).
Proof.
  intros [Hd0 Hf0].
  induction acts as [|a acts IH] using rev_ind.
  - exists []. unfold pending. simpl. rewrite Hd0, Hf0. repeat split; done.
  - destruct IH as (new & Hw & Hlen & Hm & Hc & Hlast).
    rewrite run_actions_snoc, calls_of_snoc.
    set (r := run_actions marshal acts r0) in *.
    destruct a as [u| |]; simpl.
    + exists new. rewrite length_app, mutate_all_app, <- Hm. simpl.
      unfold pending in *. simpl.
      repeat split; try done.
      destruct (dirty r), (in_flight r); simpl in *; lia.
    + rewrite app_nil_r. unfold flush_begin.
      destruct (dirty r) eqn:Hd; [destruct (in_flight r) eqn:Hf|]; simpl.
      * exists new. unfold pending in *. rewrite Hd, Hf in *.
        repeat split; try done.
      * exists new. unfold pending in *. rewrite Hd, Hf in *. simpl in *.
        repeat split; done.
      * exists new. unfold pending in *. rewrite Hd in *.
        repeat split; try done.
    + rewrite app_nil_r. unfold flush_end.
      destruct (in_flight r) as [bytes|] eqn:Hf; simpl.
      * exists (bytes :: new). simpl. rewrite Hw.
        unfold pending in *. rewrite Hf in Hlen. simpl.
        repeat split; try done.
        -- destruct (dirty r); simpl in *; lia.
        -- intros Hne Hd. specialize (Hlast Hne Hd). rewrite ?Hf in Hlast.
           by rewrite Hlast.
      * exists new. repeat split; try done.
        intros Hne Hd. specialize (Hlast Hne Hd). rewrite ?Hf in Hlast.
        by rewrite Hf.
Qed.

(** Whatever state the aggregator is in, the flush in flight completes and
    the requested one follows: it settles. *)
Lemma always_settles r :
  settled (run_actions marshal [FlushEnd; FlushBegin; FlushEnd] r).
Proof.
  unfold run_actions, settled; simpl. unfold flush_end, flush_begin.
  destruct r as [c m [|] [b|] w]; simpl; done.
Qed.

(** C1: a burst of K >= 1 calls of [RouteUpdate], started on a settled
    aggregator (a freshly constructed one is) and run until it has settled
    again, however the calls and the flushes interleave: the Config Sink
    sees at least one and at most K new writes, the last of which is the
    serialized snapshot of the model after all K calls, the model being
    the one the calls built in the order they took the lock. *)
Theorem coalesced_flushes (r0 : F5Router) (acts : list Action) :
  settled r0 ->
  settled (run_actions marshal acts r0) ->
  calls_of acts <> [] ->
  exists new,
    written (run_actions marshal acts r0) = new ++ written r0 /\
    (1 <= length new <= length (calls_of acts))%nat /\
    head new = Some (serialize marshal (model (run_actions marshal acts r0))) /\
    model (run_actions marshal acts r0) = mutate_all (calls_of acts) (model r0).
Proof.
  intros H0 [Hd Hf] Hne.
  destruct (burst_invariant acts r0 H0) as (new & Hw & Hlen & Hm & _ & Hlast).
  specialize (Hlast Hne Hd). rewrite Hf in Hlast.
  exists new. repeat split; try done.
  - destruct new; [done|simpl; lia].
  - lia.
Qed.

End Coalescing.

Lemma coalesced_flushes_witness :
  settled router0 /\
  settled (run_actions sample_marshal burst router0) /\
  length (calls_of burst) = 3%nat /\
  exists new,
    written (run_actions sample_marshal burst router0) = new ++ written router0 /\
    length new = 2%nat /\
    head new = Some (serialize sample_marshal model_foo_bar).
Proof.
  assert (settled router0) as H0 by (split; reflexivity).
  assert (settled (run_actions sample_marshal burst router0)) as H1
    by (split; reflexivity).
  split; [exact H0|]. split; [exact H1|]. split; [reflexivity|].
  destruct (coalesced_flushes sample_marshal router0 burst H0 H1)
    as (new & Hw & Hlen & Hhd & Hm); [discriminate|].
  exists new. split; [exact Hw|].
  assert (length (written (run_actions sample_marshal burst router0)) = 3%nat)
    as Hl by (vm_compute; reflexivity).
  rewrite Hw, length_app in Hl. simpl in Hl.
  split; [lia|].
  rewrite Hhd. vm_compute. reflexivity.
Defined.

(* ================================================================== *)
(** * The driver: further invariants *)
(* ================================================================== *)

(** A step writes at most one entry to the log. *)
Lemma step_log d env t s :
  exists new, log (step d env t s) = new ++ log s /\ (length new <= 1)%nat.
Proof.
  unfold step. destruct (halted s); [exists []; split; [done|simpl; lia]|].
  destruct t; unfold Run, runBigIPDriver, os_FindProcess, pid_rendezvous,
      bufio_NewScanner, cmd_StderrPipe;
    repeat case_match; simpl;
    first [ by (exists []; split; [done|simpl; lia])
          | by (eexists [_]; split; [done|simpl; lia]) ].
Qed.

Lemma step_history d env t s :
  exists new, history (step d env t s) = history s ++ new.
Proof.
  destruct (step_log d env t s) as (new & Hnew & _).
  exists (rev new). unfold history. by rewrite Hnew, rev_app_distr.
Qed.

Lemma trace_inv_step d env t s : trace_inv env s -> trace_inv env (step d env t s).
Proof.
  intros (Hready & Hpid & Hexit). unfold step.
  destruct (halted s); [done|].
  destruct s as [rp dp rc dc pc ch lg sn h].
  unfold trace_inv in *; simpl in *.
  destruct t; unfold Run, runBigIPDriver, os_FindProcess, pid_rendezvous,
      bufio_NewScanner, cmd_StderrPipe; simpl.
  - destruct rp as [| |?pid|?pid|?pid ?sig|?proc ?pid ?sig| |[?e|]]; simpl in *;
      repeat case_match; simpl in *; try tauto.
    all: split_and!; try tauto; try (intros; right; tauto).
  - destruct dp as [|?cmd|?cmd ?cmdOut ?err|?cmdOut|[|?text ?rest]| | | | |];
      simpl in *; repeat case_match; simpl in *; try tauto.
    all: split_and!; try tauto; try (intros; right; tauto);
      try (intros; left; reflexivity).
Qed.

Lemma trace_inv_exec d env sched : trace_inv env (exec d env sched init).
Proof.
  assert (forall s, trace_inv env s -> trace_inv env (exec d env sched s)) as Hgen.
  { induction sched as [|t sched IH]; intros s Hs; [done|].
    apply IH, trace_inv_step, Hs. }
  apply Hgen. unfold trace_inv; simpl. split_and!; try done.
Qed.

Lemma lineLevel_not_fatal text : not_fatal (logLine text).
Proof.
  unfold not_fatal, logLine, lineLevel; simpl. repeat case_match; done.
Qed.

Lemma fatal_inv_step d env t s : fatal_inv s -> fatal_inv (step d env t s).
Proof.
  intros Hs. unfold step. destruct (halted s) eqn:Hh; [done|].
  destruct s as [rp dp rc dc pc ch lg sn h]; simpl in Hh; subst h.
  unfold fatal_inv in *; simpl in *.
  destruct t; unfold Run, runBigIPDriver, os_FindProcess, pid_rendezvous,
      bufio_NewScanner, cmd_StderrPipe; simpl.
  - destruct rp as [| |?pid|?pid|?pid ?sig|?proc ?pid ?sig| |[?e|]]; simpl in *;
      repeat case_match; simpl in *; try done;
      by (constructor; [discriminate|done]).
  - destruct dp as [|?cmd|?cmd ?cmdOut ?err|?cmdOut|[|?text ?rest]| | | | |];
      simpl in *; repeat case_match; simpl in *; try done;
      first [ by (right; split; [discriminate|eauto])
            | by (left; split)
            | by (constructor; [first [discriminate|apply lineLevel_not_fatal]|done]) ].
Qed.

Lemma fatal_inv_exec d env sched : fatal_inv (exec d env sched init).
Proof.
  assert (forall s, fatal_inv s -> fatal_inv (exec d env sched s)) as Hgen.
  { induction sched as [|t sched IH]; intros s Hs; [done|].
    apply IH, fatal_inv_step, Hs. }
  apply Hgen. constructor.
Qed.

Lemma order_inv_step d env t s : order_inv env s -> order_inv env (step d env t s).
Proof.
  intros Hs.
  assert (drv_pc (step d env t s) = drv_pc s -> order_inv env (step d env t s))
    as Hsame.
  { intros Hpc. unfold order_inv in *. rewrite Hpc.
    destruct (step_history d env t s) as (new & ->).
    destruct (drv_pc s); try done.
    - destruct Hs as (taken & Heq & Hsub). exists taken. split; [done|].
      by apply sublist_inserts_r.
    - by apply sublist_inserts_r.
    - by apply sublist_inserts_r.
    - by apply sublist_inserts_r.
    - by apply sublist_inserts_r. }
  unfold step in *. destruct (halted s); [done|].
  destruct s as [rp dp rc dc pc ch lg sn h]. unfold order_inv in Hs; simpl in Hs.
  destruct t.
  - unfold Run, os_FindProcess, pid_rendezvous,
      bufio_NewScanner, cmd_StderrPipe in *; simpl in *.
    destruct rp as [| |?pid|?pid|?pid ?sig|?proc ?pid ?sig| |[?e|]]; simpl in *;
      try (apply Hsame; repeat case_match; reflexivity).
    + done.
    + destruct dp; simpl in *; try (apply Hsame; repeat case_match; reflexivity).
      destruct cmdOut as [r|]; [|done].
      rewrite (Hs r eq_refl). exists []. split; [done|apply sublist_nil_l].
  - unfold runBigIPDriver, pid_rendezvous, bufio_NewScanner, cmd_StderrPipe in *; simpl in *.
    destruct dp as [|?cmd|?cmd ?cmdOut ?err|?cmdOut|[|?text ?rest]| | | | |];
      simpl in *; try done.
    + unfold order_inv. destruct (StderrPipe env).2; simpl; congruence.
    + destruct (Start env); [by apply Hsame|]. done.
    + destruct rp; try (by apply Hsame).
      destruct cmdOut as [r|]; [|done].
      rewrite (Hs r eq_refl). exists []. split; [done|apply sublist_nil_l].
    + destruct Hs as (taken & Heq & Hsub). unfold order_inv; simpl.
      by rewrite Heq, app_nil_r.
    + destruct Hs as (taken & Heq & Hsub). unfold order_inv, history; simpl.
      exists (taken ++ [text]). split; [by rewrite <- app_assoc|].
      rewrite map_app. by apply sublist_app.
    + repeat case_match; try (by apply Hsame).
      unfold order_inv, history; simpl. by apply sublist_inserts_r.
Qed.

Lemma order_inv_exec d env sched : order_inv env (exec d env sched init).
Proof.
  assert (forall s, order_inv env s -> order_inv env (exec d env sched s)) as Hgen.
  { induction sched as [|t sched IH]; intros s Hs; [done|].
    apply IH, order_inv_step, Hs. }
  apply Hgen. exact I.
Qed.

(* ================================================================== *)
(** * The driver: start, readiness and the ends of a run *)
(* ================================================================== *)

(** X1 (lines 83-86, 137-139): when [cmd.Start()] fails, no execution gets
    beyond it: no child is recorded, [Run] never receives a pid, never
    closes [ready], never sends a signal and never returns; every
    execution at rest has been terminated by the fatal entry
    [f5router-driver-failed-start] that carries the error of the start,
    and round robin scheduling gets there. *)
Theorem start_failure_is_fatal (d : Driver) (env : Env) (e : error) :
  Start env = Some e ->
  (forall sched,
     child (exec d env sched init) = None /\
     ready_closed (exec d env sched init) = false /\
     sent (exec d env sched init) = [] /\
     (forall r, run_pc (exec d env sched init) <> R_return r) /\
     (quiescent d env (exec d env sched init) ->
      halted (exec d env sched init) = true /\
      head (log (exec d env sched init)) = Some (failed_start_entry e))) /\
  halted (exec d env (round_robin (fuel env)) init) = true.
Proof.
  intros Hstart.
  assert (forall sched,
            quiescent d env (exec d env sched init) ->
            halted (exec d env sched init) = true /\
            head (log (exec d env sched init)) = Some (failed_start_entry e)) as Hrest.
  { intros sched Hq.
    assert (halted (exec d env sched init) = true) as Hh.
    { destruct (quiescent_cases _ _ _ (Inv_exec d env sched) Hq)
        as [Hh|(_ & Hd & _)]; [done|].
      destruct (Inv_exec d env sched) as [_ Hdrv].
      unfold drv_inv in Hdrv. rewrite Hd in Hdrv.
      destruct Hdrv as (? & _). congruence. }
    split; [done|].
    unfold failed_start_entry.
    destruct (halted_causes _ _ _ Hh) as [(e' & ? & ?)|[(? & _)|(? & _)]];
      congruence. }
  split; [|apply Hrest, exec_rests].
  intros sched.
  destruct (Inv_exec d env sched) as [Hrun Hdrv].
  destruct (trace_inv_exec d env sched) as (Hready & _ & _).
  set (s := exec d env sched init) in *.
  assert (~ drv_after_send (drv_pc s) /\ child s = None) as [Hnot Hchild].
  { unfold drv_inv in Hdrv. destruct (drv_pc s); simpl; destruct_and?;
      try congruence; (split; [tauto|done]). }
  assert (~ run_past_ready (run_pc s) /\ sent s = [] /\
          forall r, run_pc s <> R_return r) as (Hpast & Hsent & Hret).
  { unfold run_inv, forwarded, gave_up in Hrun.
    destruct (run_pc s) as [| |?|?|? ?|? ? ?| |[?|]]; simpl;
      destruct_and?; try tauto; (split_and!; [tauto|done|done]). }
  split_and!; try done.
  - destruct (ready_closed s); [|done]. exfalso. tauto.
  - apply Hrest.
Qed.

Lemma start_failure_is_fatal_witness :
  Start env_no_start = Some "exec: python: executable file not found in $PATH" /\
  halted (exec d0 env_no_start (round_robin (fuel env_no_start)) init) = true /\
  ready_closed (exec d0 env_no_start (round_robin 4) init) = false.
Proof.
  split; [reflexivity|].
  destruct (start_failure_is_fatal d0 env_no_start _ eq_refl) as [Hall Hh].
  split; [exact Hh|].
  destruct (Hall (round_robin 4)) as (_ & Hready & _). exact Hready.
Defined.

(** X2 (lines 87-89, 137-139, 141-148): [ready] is closed only once the
    child has been started and its pid logged; no signal is forwarded and
    [Run] does not return before [ready] is closed; and every execution
    that is at rest in a process still alive has closed it. *)
Theorem ready_closed_after_start (d : Driver) (env : Env) (sched : list Thread) :
  (ready_closed (exec d env sched init) = true ->
   Start env = None /\
   child (exec d env sched init) = Some (createDriverCmd d) /\
   In (pid_entry env) (log (exec d env sched init))) /\
  (sent (exec d env sched init) <> [] ->
   ready_closed (exec d env sched init) = true) /\
  (forall r, run_pc (exec d env sched init) = R_return r ->
             ready_closed (exec d env sched init) = true) /\
  (quiescent d env (exec d env sched init) ->
   halted (exec d env sched init) = false ->
   ready_closed (exec d env sched init) = true).
Proof.
  pose proof (Inv_exec d env sched) as HI.
  destruct (trace_inv_exec d env sched) as (Hready & Hpid & _).
  destruct HI as [Hrun Hdrv].
  set (s := exec d env sched init) in *.
  assert (run_past_ready (run_pc s) -> drv_after_send (drv_pc s)) as Hafter.
  { unfold run_inv in Hrun.
    destruct (run_pc s) as [| |?|?|? ?|? ? ?| |[?|]]; simpl; tauto. }
  assert (sent s <> [] -> run_past_ready (run_pc s)) as Hsent.
  { unfold run_inv in Hrun.
    destruct (run_pc s) as [| |?|?|? ?|? ? ?| |[?|]]; simpl; tauto. }
  split_and!.
  - intros Hc. apply Hready, Hafter in Hc.
    unfold drv_inv in Hdrv.
    destruct (drv_pc s); simpl in Hc; try done; split_and!; try tauto;
      by apply Hpid.
  - intros Hne. by apply Hready, Hsent.
  - intros r Hr. apply Hready. by rewrite Hr.
  - intros Hq Hh.
    destruct (quiescent_cases d env s (conj Hrun Hdrv) Hq)
      as [?|(_ & _ & [[r Hr]|(_ & pid & Hr)])]; [congruence|..];
      apply Hready; by rewrite Hr.
Qed.

Lemma ready_closed_after_start_witness :
  ready_closed (exec d0 env_clean (round_robin 4) init) = true /\
  In (pid_entry env_clean) (log (exec d0 env_clean (round_robin 4) init)) /\
  ready_closed (exec d0 env_clean (round_robin (fuel env_clean)) init) = true.
Proof.
  assert (ready_closed (exec d0 env_clean (round_robin 4) init) = true) as Hc
    by reflexivity.
  split; [exact Hc|].
  destruct (ready_closed_after_start d0 env_clean (round_robin 4)) as (H1 & _).
  destruct (H1 Hc) as (_ & _ & Hin).
  split; [exact Hin|].
  destruct (ready_closed_after_start d0 env_clean (round_robin (fuel env_clean)))
    as (_ & _ & H3 & _).
  apply (H3 None). reflexivity.
Defined.

(** X3 (lines 121-126, 141): when the child exits with status zero and no
    signal ever arrives, [Run] does not return and forwards nothing; when
    moreover the pipe was created, the process is not terminated, and at
    rest the goroutine has returned after the warning
    [f5router-driver-exited-normally] and the close of [done], and [Run]
    still waits on [signals] at line 141. *)
Theorem clean_exit_without_signal (d : Driver) (env : Env) (sched : list Thread) :
  signals env = None -> Start env = None -> Wait env = WaitNil ->
  (forall r, run_pc (exec d env sched init) <> R_return r) /\
  sent (exec d env sched init) = [] /\
  ((StderrPipe env).2 = None ->
   halted (exec d env sched init) = false /\
   (quiescent d env (exec d env sched init) ->
    run_pc (exec d env sched init) = R_recv_sig (Pid env) /\
    drv_pc (exec d env sched init) = D_returned /\
    done_closed (exec d env sched init) = true /\
    In normal_exit_entry (log (exec d env sched init)))).
Proof.
  intros Hsig Hstart Hwait.
  pose proof (Inv_exec d env sched) as HI.
  destruct (trace_inv_exec d env sched) as (_ & _ & Hexit).
  set (s := exec d env sched init) in *.
  assert ((forall r, run_pc s <> R_return r) /\ sent s = []) as [Hret Hsent].
  { destruct HI as [Hrun _]. unfold run_inv, forwarded, gave_up in Hrun.
    destruct (run_pc s) as [| |?|?|? ?|? ? ?| |[?|]]; simpl;
      destruct_and?; try (split; [done|done]);
      first [congruence | naive_solver]. }
  split_and!; try done.
  intros Hpipe.
  assert (halted s = false) as Hh.
  { destruct (halted s) eqn:Hh; [|done].
    destruct (halted_cause _ _ _ Hpipe Hh) as [(e & ? & _)|(_ & entry & He & _)];
      [congruence|]. rewrite Hwait in He. discriminate. }
  split; [done|].
  intros Hq.
  destruct (quiescent_cases d env s HI Hq)
    as [?|(_ & Hd & [[r Hr]|(_ & pid & Hr)])]; [congruence|by destruct (Hret r)|].
  destruct HI as [Hrun Hdrv].
  unfold run_inv in Hrun. rewrite Hr in Hrun. destruct Hrun as (-> & _).
  unfold drv_inv, channels in Hdrv. rewrite Hd in Hdrv.
  destruct Hdrv as (_ & _ & _ & _ & [= Hdone _]).
  split_and!; try done. apply Hexit. by rewrite Hd.
Qed.

Lemma clean_exit_without_signal_witness :
  run_pc (exec d0 env_unasked (round_robin (fuel env_unasked)) init) = R_recv_sig 4242 /\
  In normal_exit_entry (log (exec d0 env_unasked (round_robin (fuel env_unasked)) init)).
Proof.
  destruct (clean_exit_without_signal d0 env_unasked (round_robin (fuel env_unasked))
              eq_refl eq_refl eq_refl) as (_ & _ & H).
  destruct (H eq_refl) as (_ & Hrest).
  destruct (Hrest (exec_rests d0 env_unasked)) as (Hr & _ & _ & Hin).
  split; [exact Hr|exact Hin].
Defined.

(** X4 (lines 119-120): when [cmd.Wait()] returns an error that is not an
    [*exec.ExitError], [done] is never closed and [Run] never returns
    [nil]; the pipe having been created, every execution at rest has been
    terminated by the fatal entry [f5router-driver-exited] that carries
    that error. *)
Theorem wait_error_is_fatal (d : Driver) (env : Env) (e : error) (sched : list Thread) :
  Start env = None -> Wait env = WaitOther e ->
  done_closed (exec d env sched init) = false /\
  run_pc (exec d env sched init) <> R_return None /\
  ((StderrPipe env).2 = None ->
   quiescent d env (exec d env sched init) ->
   halted (exec d env sched init) = true /\
   head (log (exec d env sched init))
   = Some (mkLog FatalLevel "f5router-driver-exited" [ZError e])).
Proof.
  intros Hstart Hwait.
  pose proof (Inv_exec d env sched) as HI.
  set (s := exec d env sched init) in *.
  assert (~ drv_exited (drv_pc s) /\ done_closed s = false) as [Hnot Hdone].
  { destruct HI as [_ Hdrv]. unfold drv_inv, channels in Hdrv.
    destruct (drv_pc s); simpl; destruct_and?; try congruence;
      (split; [tauto|]);
      match goal with Hc : (_, _) = (_, _) |- _ => by injection Hc end. }
  split_and!; [done| |].
  - intros Hr. apply returned_nil_cause in Hr as ((_ & _ & ? & _) & _). congruence.
  - intros Hpipe Hq.
    assert (halted s = true) as Hh.
    { destruct (quiescent_cases d env s HI Hq) as [?|(_ & Hd & _)]; [done|].
      exfalso. apply Hnot. by rewrite Hd. }
    split; [done|].
    destruct (halted_cause _ _ _ Hpipe Hh) as [(e' & ? & _)|(_ & entry & He & Hhd)];
      [congruence|].
    rewrite Hwait in He. by simplify_eq/=.
Qed.

Lemma wait_error_is_fatal_witness :
  halted (exec d0 env_wait_fails (round_robin (fuel env_wait_fails)) init) = true /\
  head (log (exec d0 env_wait_fails (round_robin (fuel env_wait_fails)) init))
  = Some (mkLog FatalLevel "f5router-driver-exited" [ZError "wait: no child processes"]).
Proof.
  destruct (wait_error_is_fatal d0 env_wait_fails "wait: no child processes"
              (round_robin (fuel env_wait_fails)) eq_refl eq_refl) as (_ & _ & H).
  apply (H eq_refl), exec_rests.
Defined.

(** X5 (lines 141-156): in any execution [proc.Signal] is called at most
    once, and only after [os.FindProcess] has succeeded; a lookup that
    failed means that nothing was sent. *)
Theorem Signal_called_at_most_once (d : Driver) (env : Env) (sched : list Thread) :
  (length (sent (exec d env sched init)) <= 1)%nat /\
  (sent (exec d env sched init) <> [] ->
   FindProcess_err env (Pid env) = None) /\
  (forall e, FindProcess_err env (Pid env) = Some e ->
             sent (exec d env sched init) = []).
Proof.
  destruct (Inv_exec d env sched) as [Hrun _].
  set (s := exec d env sched init) in *.
  assert (sent s = [] \/
          (FindProcess_err env (Pid env) = None /\ exists x, sent s = [x])) as Hcases.
  { unfold run_inv, forwarded, gave_up in Hrun.
    destruct (run_pc s) as [| |?|?|? ?|? ? ?| |[?|]]; naive_solver. }
  split_and!.
  - destruct Hcases as [->|(_ & x & ->)]; simpl; lia.
  - intros Hne. destruct Hcases as [?|(? & _)]; done.
  - intros e He. destruct Hcases as [?|(? & _)]; [done|congruence].
Qed.

Lemma Signal_called_at_most_once_witness :
  sent (exec d0 env_lost (round_robin (fuel env_lost)) init) = [] /\
  FindProcess_err env_clean (Pid env_clean) = None.
Proof.
  split.
  - destruct (Signal_called_at_most_once d0 env_lost (round_robin (fuel env_lost)))
      as (_ & _ & H).
    apply (H "OpenProcess: invalid parameter"). reflexivity.
  - destruct (Signal_called_at_most_once d0 env_clean (round_robin (fuel env_clean)))
      as (_ & H & _).
    apply H. vm_compute. discriminate.
Defined.

(** X6 (lines 91-108): the lines of the child's error stream reach the log
    in the order of the stream and none is skipped: while the scan loop
    runs, the entries of the lines taken so far, and once it has seen the
    end of the stream the entries of all lines, are a subsequence of the
    log read from the oldest entry to the newest. *)
Theorem lines_logged_in_order (d : Driver) (env : Env) (sched : list Thread) :
  (forall rest,
     drv_pc (exec d env sched init) = D_scan rest ->
     exists taken,
       (StderrPipe env).1 = taken ++ rest /\
       map logLine taken `sublist_of` history (exec d env sched init)) /\
  (drv_after_scan (drv_pc (exec d env sched init)) ->
   map logLine (StderrPipe env).1 `sublist_of` history (exec d env sched init)).
Proof.
  pose proof (order_inv_exec d env sched) as Hs. unfold order_inv in Hs.
  split.
  - intros rest Hpc. by rewrite Hpc in Hs.
  - intros Hafter. destruct (drv_pc (exec d env sched init)); done.
Qed.

Lemma lines_logged_in_order_witness :
  [logLine "[DEBUG] one"; logLine "two"]
    `sublist_of` history (exec d0 env_unasked (round_robin (fuel env_unasked)) init).
Proof.
  destruct (lines_logged_in_order d0 env_unasked (round_robin (fuel env_unasked)))
    as (_ & H).
  apply H. exact I.
Defined.

(** X7 (lines 85, 94-104, 114, 117, 120): no line of the child is ever
    logged at fatal level, whatever it contains; a fatal entry in the log is
    the newest entry of the log, the only fatal one, and the process has
    been terminated; and, the pipe having been created, a terminated
    process has such an entry. *)
Theorem fatal_entry_is_last (d : Driver) (env : Env) (sched : list Thread) :
  (forall text, level (logLine text) <> FatalLevel) /\
  (forall entry,
     In entry (log (exec d env sched init)) -> level entry = FatalLevel ->
     halted (exec d env sched init) = true /\
     head (log (exec d env sched init)) = Some entry /\
     Forall not_fatal (tail (log (exec d env sched init)))) /\
  ((StderrPipe env).2 = None ->
   halted (exec d env sched init) = true ->
   exists entry, head (log (exec d env sched init)) = Some entry /\
                 level entry = FatalLevel).
Proof.
  split; [apply lineLevel_not_fatal|].
  pose proof (fatal_inv_exec d env sched) as Hs. unfold fatal_inv in Hs.
  pose proof (pipe_inv_exec d env sched) as Hp. unfold pipe_inv in Hp.
  destruct (halted (exec d env sched init)).
  - destruct Hs as [[Hpc Hnf]|(_ & e & rest & Hlog & He & Hrest)].
    + split.
      * intros entry Hin Hlevel.
        rewrite Forall_forall in Hnf. apply list_elem_of_In in Hin.
        by destruct (Hnf _ Hin).
      * intros Hpipe _. by rewrite Hpc in Hp.
    + rewrite Hlog. split.
      * intros entry [<-|Hin] Hlevel; [done|].
        rewrite Forall_forall in Hrest. apply list_elem_of_In in Hin.
        by destruct (Hrest _ Hin).
      * intros _ _. by exists e.
  - split; [|done].
    intros entry Hin Hlevel.
    rewrite Forall_forall in Hs. apply list_elem_of_In in Hin.
    by destruct (Hs _ Hin).
Qed.

Lemma fatal_entry_is_last_witness :
  halted (exec d0 env_crash (round_robin (fuel env_crash)) init) = true /\
  Forall not_fatal (tail (log (exec d0 env_crash (round_robin (fuel env_crash)) init))).
Proof.
  destruct (fatal_entry_is_last d0 env_crash (round_robin (fuel env_crash)))
    as (_ & H & _).
  destruct (H (mkLog FatalLevel "f5router-driver-exited" [ZInt "exit-status" 1]))
    as (Hh & _ & Hrest).
  - vm_compute. left. reflexivity.
  - reflexivity.
  - split; [exact Hh|exact Hrest].
Defined.

(** X9 (lines 89, 126, 133-137, 157): [Run] and the goroutine never wait
    for each other for good.  Round robin scheduling brings every
    execution to rest; and at rest, in a process that has not been
    terminated, the goroutine has returned and [Run] has returned or waits,
    at line 141, for a signal that never comes: it is not blocked on
    [pidCh] or on [done]. *)
Theorem threads_never_deadlock (d : Driver) (env : Env) :
  quiescent d env (exec d env (round_robin (fuel env)) init) /\
  (forall sched,
     quiescent d env (exec d env sched init) ->
     halted (exec d env sched init) = false ->
     drv_pc (exec d env sched init) = D_returned /\
     run_pc (exec d env sched init) <> R_recv_pid /\
     run_pc (exec d env sched init) <> R_wait_done /\
     ((exists r, run_pc (exec d env sched init) = R_return r) \/
      (signals env = None /\
       run_pc (exec d env sched init) = R_recv_sig (Pid env)))).
Proof.
  split; [apply exec_rests|].
  intros sched Hq Hh.
  pose proof (Inv_exec d env sched) as HI.
  destruct (quiescent_cases _ _ _ HI Hq)
    as [?|(_ & Hd & [[r Hr]|(Hsig & pid & Hr)])]; [congruence|..].
  - rewrite Hr. split_and!; try done. left. by exists r.
  - destruct HI as [Hrun _]. unfold run_inv in Hrun. rewrite Hr in *.
    destruct Hrun as (-> & _). split_and!; try done. by right.
Qed.

Lemma threads_never_deadlock_witness :
  drv_pc (exec d0 env_unasked (round_robin (fuel env_unasked)) init) = D_returned /\
  run_pc (exec d0 env_unasked (round_robin (fuel env_unasked)) init) <> R_wait_done.
Proof.
  destruct (threads_never_deadlock d0 env_unasked) as (Hq & H).
  destruct (H (round_robin (fuel env_unasked)) Hq) as (Hd & _ & Hw & _);
    [reflexivity|].
  split; [exact Hd|exact Hw].
Defined.

(** X10 (lines 78, 109-126, 137): [done] is closed only after [cmd.Wait()]
    returned [nil] and the warning [f5router-driver-exited-normally] was
    logged, in a process that is alive; the deferred close of the pid
    channel comes after the close of [done], the pipe having been created,
    and by then [Run] has received the pid: it never reads the zero value
    of the closed channel. *)
Theorem done_closed_only_after_clean_exit (d : Driver) (env : Env)
    (sched : list Thread) :
  (done_closed (exec d env sched init) = true ->
   Start env = None /\ Wait env = WaitNil /\
   halted (exec d env sched init) = false /\
   In normal_exit_entry (log (exec d env sched init))) /\
  (pid_closed (exec d env sched init) = true ->
   ((StderrPipe env).2 = None -> done_closed (exec d env sched init) = true) /\
   run_pc (exec d env sched init) <> R_recv_pid) /\
  (forall pid, run_pc (exec d env sched init) = R_ready pid -> pid = Pid env).
Proof.
  destruct (Inv_exec d env sched) as [Hrun Hdrv].
  destruct (trace_inv_exec d env sched) as (_ & _ & Hexit).
  pose proof (pipe_inv_exec d env sched) as Hp.
  set (s := exec d env sched init) in *.
  unfold drv_inv, channels in Hdrv. unfold pipe_inv in Hp.
  assert (done_closed s = true ->
          drv_exited (drv_pc s) /\ Start env = None /\ Wait env = WaitNil /\
          halted s = false) as Hdone.
  { intros Hc. rewrite Hc in Hdrv.
    destruct (drv_pc s); simpl; destruct_and?; try discriminate; done. }
  assert (pid_closed s = true ->
          ((StderrPipe env).2 = None -> done_closed s = true) /\
          drv_after_send (drv_pc s)) as Hpid.
  { intros Hc. rewrite Hc in Hdrv.
    destruct (drv_pc s); simpl; destruct_and?; try discriminate; [|done].
    match goal with Hc : (_, _) = (_, _) |- _ => by injection Hc end. }
  split_and!.
  - intros Hc. destruct (Hdone Hc) as (? & ? & ? & ?). split_and!; try done.
    by apply Hexit.
  - intros Hc. destruct (Hpid Hc) as [Hd Hafter]. split; [done|].
    intros Hr. unfold run_inv in Hrun. rewrite Hr in Hrun.
    destruct Hrun as [Hbefore _]. by destruct (drv_pc s).
  - intros pid Hr. unfold run_inv in Hrun. rewrite Hr in Hrun. tauto.
Qed.

Lemma done_closed_only_after_clean_exit_witness :
  done_closed (exec d0 env_clean (round_robin 8) init) = true /\
  Wait env_clean = WaitNil /\
  In normal_exit_entry (log (exec d0 env_clean (round_robin 8) init)).
Proof.
  assert (done_closed (exec d0 env_clean (round_robin 8) init) = true) as Hc
    by reflexivity.
  split; [exact Hc|].
  destruct (done_closed_only_after_clean_exit d0 env_clean (round_robin 8))
    as (H & _).
  destruct (H Hc) as (_ & Hw & _ & Hin).
  split; [exact Hw|exact Hin].
Defined.

(* ================================================================== *)
(** * The driver: where the markers are looked for *)
(* ================================================================== *)

Lemma prefix_occurs sub s :
  Stdlib.Strings.String.prefix sub s = true <-> exists post, s = sub +:+ post.
Proof.
  revert s. induction sub as [|a sub IH]; intros s; simpl.
  - destruct s; (split; [intros _; eexists; reflexivity|done]).
  - destruct s as [|b s]; simpl.
    + split; [done|]. intros [post Hpost]. discriminate.
    + destruct (ascii_dec a b) as [->|Hne].
      * rewrite IH. split; intros [post Hpost]; exists post.
        -- simpl. by rewrite Hpost.
        -- simpl in Hpost. by injection Hpost.
      * split; [done|]. intros [post Hpost]. simpl in Hpost.
        injection Hpost as Hb _. by destruct Hne.
Qed.

Lemma Contains_unfold s sub :
  Contains s sub =
  if Stdlib.Strings.String.prefix sub s then true
  else match s with
       | EmptyString => false
       | String _ s' => Contains s' sub
       end.
Proof. by destruct s. Qed.

Lemma Contains_occurs s sub : Contains s sub = true <-> occurs sub s.
Proof.
  unfold occurs. split.
  - induction s as [|c s IH]; rewrite Contains_unfold;
      destruct (Stdlib.Strings.String.prefix sub _) eqn:Hp; try done.
    + apply prefix_occurs in Hp as [post Hpost]. by exists "", post.
    + apply prefix_occurs in Hp as [post Hpost]. by exists "", post.
    + intros Hc. destruct (IH Hc) as (pre & post & ->).
      by exists (String c pre), post.
  - intros (pre & post & ->).
    induction pre as [|c pre IH]; rewrite Contains_unfold.
    + assert (Stdlib.Strings.String.prefix sub ("" +:+ sub +:+ post) = true) as ->;
        [|done].
      apply prefix_occurs. by exists post.
    + destruct (Stdlib.Strings.String.prefix sub _); [done|]. exact IH.
Qed.

Lemma Contains_not_occurs s sub : Contains s sub = false <-> ~ occurs sub s.
Proof.
  rewrite <- Contains_occurs. by destruct (Contains s sub).
Qed.

(** X8 (lines 94-104): the markers are looked for anywhere in the line, as
    they are spelt.  A line is logged at debug level exactly when [DEBUG]]
    occurs in it; at warn level exactly when [Warn]] occurs and [DEBUG]]
    does not; at error level exactly when [ERROR]] or [CRITICAL]] occurs
    and neither [DEBUG]] nor [Warn]] does; and at informational level
    exactly when none of the four occurs. *)
Theorem lineLevel_by_occurrence (text : string) :
  (lineLevel text = DebugLevel <-> occurs "DEBUG]" text) /\
  (lineLevel text = WarnLevel <->
   occurs "Warn]" text /\ ~ occurs "DEBUG]" text) /\
  (lineLevel text = ErrorLevel <->
   (occurs "ERROR]" text \/ occurs "CRITICAL]" text) /\
   ~ occurs "DEBUG]" text /\ ~ occurs "Warn]" text) /\
  (lineLevel text = InfoLevel <->
   ~ occurs "DEBUG]" text /\ ~ occurs "Warn]" text /\
   ~ occurs "ERROR]" text /\ ~ occurs "CRITICAL]" text).
Proof.
  unfold lineLevel.
  destruct (Contains text "DEBUG]") eqn:Hd;
    [apply Contains_occurs in Hd|apply Contains_not_occurs in Hd];
  (destruct (Contains text "Warn]") eqn:Hw;
    [apply Contains_occurs in Hw|apply Contains_not_occurs in Hw]);
  (destruct (Contains text "ERROR]") eqn:He;
    [apply Contains_occurs in He|apply Contains_not_occurs in He]);
  (destruct (Contains text "CRITICAL]") eqn:Hc;
    [apply Contains_occurs in Hc|apply Contains_not_occurs in Hc]);
  split_and!; split; try discriminate; try tauto.
Qed.

Lemma lineLevel_by_occurrence_witness :
  lineLevel "2017-06-01 [python] DEBUG] polling" = DebugLevel /\
  ~ occurs "Warn]" "[WARNING] slow".
Proof.
  split.
  - destruct (lineLevel_by_occurrence "2017-06-01 [python] DEBUG] polling")
      as (H & _).
    apply H. exists "2017-06-01 [python] ", " polling". reflexivity.
  - destruct (lineLevel_by_occurrence "[WARNING] slow") as (_ & _ & _ & H).
    apply H. reflexivity.
Defined.

(* ================================================================== *)
(** * The driver: what a run leaves in the log *)
(* ================================================================== *)

(** X13 (lines 143-156): when the signal arrives and the lookup of the
    child fails, or the lookup succeeds and the delivery fails, every
    execution at rest has either been terminated or has [Run] returned
    exactly that error; when moreover the pipe was created and the child
    exits with status zero, the process is never terminated, and round
    robin scheduling has [Run] return the error. *)
Theorem delivery_error_is_returned (d : Driver) (env : Env) (sig : Signal) (e : error) :
  signals env = Some sig ->
  FindProcess_err env (Pid env) = Some e \/
  (FindProcess_err env (Pid env) = None /\ Signal_err env (Pid env) sig = Some e) ->
  (forall sched,
     quiescent d env (exec d env sched init) ->
     halted (exec d env sched init) = true \/
     run_pc (exec d env sched init) = R_return (Some e)) /\
  ((StderrPipe env).2 = None -> Start env = None -> Wait env = WaitNil ->
   run_pc (exec d env (round_robin (fuel env)) init) = R_return (Some e) /\
   halted (exec d env (round_robin (fuel env)) init) = false).
Proof.
  intros Hsig Hfail.
  assert (forall sched,
            quiescent d env (exec d env sched init) ->
            halted (exec d env sched init) = true \/
            run_pc (exec d env sched init) = R_return (Some e)) as Hrest.
  { intros sched Hq.
    pose proof (Inv_exec d env sched) as HI.
    destruct (quiescent_cases _ _ _ HI Hq)
      as [?|(_ & _ & [[r Hr]|(Hnone & _)])]; [by left| |congruence].
    right. rewrite Hr. destruct HI as [Hrun _].
    unfold run_inv, forwarded, gave_up in Hrun. rewrite Hr in Hrun.
    destruct r as [e'|].
    - destruct Hrun as (_ & sig' & Hsig' & Hcase).
      assert (sig' = sig) as -> by congruence.
      destruct Hfail as [?|[? ?]], Hcase as [(? & _)|(? & ? & _)]; congruence.
    - destruct Hrun as (_ & (sig' & Hsig' & ? & ? & _) & _).
      assert (sig' = sig) as -> by congruence.
      destruct Hfail as [?|[? ?]]; congruence. }
  split; [exact Hrest|].
  intros Hpipe Hstart Hwait.
  assert (halted (exec d env (round_robin (fuel env)) init) = false) as Hh.
  { destruct (halted _) eqn:Hh; [|done].
    destruct (halted_cause _ _ _ Hpipe Hh) as [(e' & ? & _)|(_ & entry & He & _)];
      [congruence|]. rewrite Hwait in He. discriminate. }
  split; [|done].
  destruct (Hrest _ (exec_rests d env)); [congruence|done].
Qed.

Lemma delivery_error_is_returned_witness :
  run_pc (exec d0 env_lost (round_robin (fuel env_lost)) init)
  = R_return (Some "OpenProcess: invalid parameter") /\
  run_pc (exec d0 env_finished (round_robin (fuel env_finished)) init)
  = R_return (Some "os: process already finished").
Proof.
  split.
  - destruct (delivery_error_is_returned d0 env_lost SIGTERM
                "OpenProcess: invalid parameter" eq_refl) as (_ & H).
    + left. reflexivity.
    + apply H; reflexivity.
  - destruct (delivery_error_is_returned d0 env_finished SIGTERM
                "os: process already finished" eq_refl) as (_ & H).
    + right. split; reflexivity.
    + apply H; reflexivity.
Defined.

Lemma head_app_Some {A} (h new : list A) a :
  head h = Some a -> head (h ++ new) = Some a.
Proof. by destruct h. Qed.

Lemma sublist_snoc_2 {A} (h : list A) a b x :
  [a; b] `sublist_of` h -> [a; b; x] `sublist_of` h ++ [x].
Proof. intros Hs. by apply (sublist_app [a; b] h [x] [x]). Qed.

Lemma sublist_snoc_3 {A} (h : list A) a b c x :
  [a; b; c] `sublist_of` h -> [a; b; c; x] `sublist_of` h ++ [x].
Proof. intros Hs. by apply (sublist_app [a; b; c] h [x] [x]). Qed.

Lemma sublist_head_snoc {A} (h : list A) a x :
  head h = Some a -> [a; x] `sublist_of` h ++ [x].
Proof.
  destruct h as [|a' h]; [done|]. intros [= ->]. simpl.
  apply sublist_skip, sublist_inserts_l. done.
Qed.

Lemma milestones_step d env t s :
  Inv d env s -> milestones env s -> milestones env (step d env t s).
Proof.
  intros [Hrun Hdrv] (H1 & H2 & H3 & H4 & H5). unfold step.
  destruct (halted s) eqn:Hh; [done|].
  destruct s as [rp dp rc dc pc ch lg sn h]; simpl in Hh; subst h.
  unfold milestones, history, run_inv, drv_inv, forwarded, channels in *;
    simpl in *.
  split_pcs rp dp.
  all: destruct t; unfold Run, runBigIPDriver, os_FindProcess, pid_rendezvous,
      bufio_NewScanner, cmd_StderrPipe; simpl.
  all: repeat case_match; simpl in *; destruct_and?; simplify_eq/=.
  all: split_and!; intros;
    try done;
    try (exfalso; tauto);
    auto using head_app_Some, sublist_inserts_r, sublist_snoc_2, sublist_snoc_3,
               sublist_head_snoc.
Qed.

Lemma milestones_exec d env sched : milestones env (exec d env sched init).
Proof.
  assert (forall s, Inv d env s -> milestones env s ->
                    milestones env (exec d env sched s)) as Hgen.
  { induction sched as [|t sched IH]; intros s HI Hs; [done|].
    apply IH; [by apply Inv_step|by apply milestones_step]. }
  apply Hgen; [apply Inv_init|].
  unfold milestones; simpl. split_and!; done.
Qed.

(** X11 (lines 87, 123, 131, 139, 158): the log of every execution opens
    with [f5router-driver-starting]; by the time a signal is forwarded or
    [Run] returns, the pid of the child and then [f5router-driver-started]
    have been logged after it; once [done] is closed, the pid and then the
    warning of the normal exit have; and when [Run] has returned [nil],
    [f5router-driver-stopped] comes after all of them. *)
Theorem log_milestones_in_order (d : Driver) (env : Env) (sched : list Thread) :
  (history (exec d env sched init) <> [] ->
   head (history (exec d env sched init)) = Some starting_entry) /\
  (sent (exec d env sched init) <> [] \/
   (exists r, run_pc (exec d env sched init) = R_return r) ->
   [starting_entry; pid_entry env; started_entry]
     `sublist_of` history (exec d env sched init)) /\
  (done_closed (exec d env sched init) = true ->
   [starting_entry; pid_entry env; normal_exit_entry]
     `sublist_of` history (exec d env sched init)) /\
  (run_pc (exec d env sched init) = R_return None ->
   [starting_entry; pid_entry env; normal_exit_entry; stopped_entry]
     `sublist_of` history (exec d env sched init)).
Proof.
  destruct (Inv_exec d env sched) as [Hrun Hdrv].
  destruct (milestones_exec d env sched) as (H1 & H2 & H3 & H4 & H5).
  set (s := exec d env sched init) in *.
  split_and!.
  - intros Hne. apply H1. intros Hr.
    unfold run_inv in Hrun. rewrite Hr in Hrun. destruct Hrun as [Hd _].
    unfold drv_inv in Hdrv. rewrite Hd in Hdrv.
    destruct Hdrv as (_ & _ & _ & Hlog). unfold history in Hne.
    by rewrite Hlog in Hne.
  - intros Hcase. apply H3.
    unfold run_inv in Hrun.
    destruct Hcase as [Hne|[r Hr]]; [|by rewrite Hr].
    destruct (run_pc s) as [| |?|?|? ?|? ? ?| |[?|]]; simpl; tauto.
  - intros Hc. apply H4.
    unfold drv_inv, channels in Hdrv. rewrite Hc in Hdrv.
    destruct (drv_pc s); simpl; destruct_and?; try discriminate; done.
  - exact H5.
Qed.

Lemma log_milestones_in_order_witness :
  [starting_entry; pid_entry env_clean; normal_exit_entry; stopped_entry]
    `sublist_of` history (exec d0 env_clean (round_robin (fuel env_clean)) init).
Proof.
  destruct (log_milestones_in_order d0 env_clean (round_robin (fuel env_clean)))
    as (_ & _ & _ & H).
  apply H. reflexivity.
Defined.

Lemma take_all_but {A} (taken rest : list A) :
  take (length (taken ++ rest) - length rest) (taken ++ rest) = taken.
Proof.
  rewrite length_app.
  replace (length taken + length rest - length rest)%nat with (length taken) by lia.
  by rewrite take_app_length.
Qed.

Lemma perm_insert_1 {A} (e a : A) l : e :: a :: l ≡ₚ a :: e :: l.
Proof. apply Permutation_swap. Qed.

Lemma perm_insert_2 {A} (e a b : A) l : e :: a :: b :: l ≡ₚ a :: b :: e :: l.
Proof. etrans; [apply Permutation_swap|]. constructor. apply Permutation_swap. Qed.

Lemma perm_insert_3 {A} (e a b c : A) l :
  e :: a :: b :: c :: l ≡ₚ a :: b :: c :: e :: l.
Proof.
  etrans; [apply perm_insert_2|]. do 2 constructor. apply Permutation_swap.
Qed.

Lemma log_inv_step d env t s :
  Inv d env s -> order_inv env s -> log_inv env s -> log_inv env (step d env t s).
Proof.
  intros [Hrun Hdrv] Hord Hlog Hh' Hret'. unfold step in *.
  destruct (halted s) eqn:Hh; [by apply Hlog|].
  destruct s as [rp dp rc dc pc ch lg sn h]; simpl in Hh; subst h.
  unfold log_inv, order_inv, run_inv, drv_inv, forwarded, channels in *; simpl in *.
  specialize (Hlog eq_refl).
  split_pcs rp dp.
  all: destruct t; unfold Run, runBigIPDriver, os_FindProcess, pid_rendezvous,
      bufio_NewScanner, cmd_StderrPipe in *;
    simpl in *.
  all: repeat case_match; simpl in *; destruct_and?; simplify_eq/=.
  all: try match goal with
       | Ho : forall r, Some ?x = Some r -> r = _ |- _ =>
           specialize (Ho x eq_refl); subst x
       end.
  all: try (exfalso; by eapply Hret').
  all: try (by apply Hlog).
  all: assert (forall e : error, R_return None <> R_return (Some e)) as Hnone
         by (intros; discriminate).
  all: match type of Hlog with
       | _ -> ?P =>
           assert P as Hlg by (apply Hlog; intros; discriminate);
           clear Hlog; rename Hlg into Hlog
       end.
  all: unfold starting_entry, started_entry, stopped_entry, normal_exit_entry,
         pid_entry in *.
  all: rewrite ?Nat.sub_diag, ?Nat.sub_0_r, ?firstn_all in *; simpl in *.
  all: try done.
  all: try (by rewrite Hlog).
  all: try match goal with
       | Ho : exists taken, _ |- _ =>
           destruct Ho as (taken & Heq & _);
           rewrite Heq in Hlog |- *;
           change (S (length rest)) with (length (text :: rest)) in Hlog;
           rewrite take_all_but in Hlog;
           rewrite (cons_middle text taken rest), app_assoc, take_all_but,
             map_app, rev_app_distr; simpl
       end.
  all: rewrite Hlog;
       first [ done | apply perm_insert_1 | apply perm_insert_2
             | apply perm_insert_3 ].
Qed.

Lemma log_inv_exec d env sched : log_inv env (exec d env sched init).
Proof.
  assert (forall s, Inv d env s -> order_inv env s -> log_inv env s ->
                    log_inv env (exec d env sched s)) as Hgen.
  { induction sched as [|t sched IH]; intros s HI Ho Hs; [done|].
    apply IH; [by apply Inv_step|by apply order_inv_step|by apply log_inv_step]. }
  apply Hgen; [apply Inv_init|exact I|]. intros _ _. reflexivity.
Qed.

Lemma clean_shutdown_rest d env sched :
  clean_shutdown env -> quiescent d env (exec d env sched init) ->
  run_pc (exec d env sched init) = R_return None /\
  drv_pc (exec d env sched init) = D_returned /\
  halted (exec d env sched init) = false.
Proof.
  intros (Hpipe & Hstart & Hwait & sig & Hsig & Hfind & Hkill) Hq.
  pose proof (Inv_exec d env sched) as HI.
  destruct (quiescent_cases _ _ _ HI Hq) as [Hh|(Hh & Hd & Hr)].
  - exfalso.
    destruct (halted_cause _ _ _ Hpipe Hh) as [(e & ? & _)|(_ & entry & He & _)].
    + congruence.
    + rewrite Hwait in He. discriminate.
  - split_and!; try done.
    destruct Hr as [[r Hr]|[Hnone _]]; [|congruence].
    destruct HI as [Hrun _]. unfold run_inv in Hrun. rewrite Hr in *.
    destruct r as [e|]; [|done].
    destruct Hrun as (_ & sig' & Hsig' & [(? & _)|(_ & ? & _)]); congruence.
Qed.

(** X12 (lines 73-161): the outcome of a shutdown that goes through does
    not depend on how the two threads were scheduled, but for the
    interleaving of the log.  At rest [Run] has returned [nil], the
    goroutine has returned, the three channels are closed, the one signal
    has been sent, and the log holds exactly the five entries of the two
    threads and one entry for each line of the child. *)
Theorem clean_shutdown_outcome (d : Driver) (env : Env) (sig : Signal)
    (sched : list Thread) :
  clean_shutdown env -> signals env = Some sig ->
  quiescent d env (exec d env sched init) ->
  run_pc (exec d env sched init) = R_return None /\
  drv_pc (exec d env sched init) = D_returned /\
  ready_closed (exec d env sched init) = true /\
  done_closed (exec d env sched init) = true /\
  pid_closed (exec d env sched init) = true /\
  child (exec d env sched init) = Some (createDriverCmd d) /\
  sent (exec d env sched init) = [(Pid env, sig)] /\
  halted (exec d env sched init) = false /\
  log (exec d env sched init)
  ≡ₚ [stopped_entry; started_entry; starting_entry; normal_exit_entry;
      pid_entry env] ++ map logLine (StderrPipe env).1.
Proof.
  intros Hclean Hsig Hq.
  destruct (clean_shutdown_rest d env sched Hclean Hq) as (Hr & Hd & Hh).
  destruct (Inv_exec d env sched) as [Hrun Hdrv].
  destruct (trace_inv_exec d env sched) as (Hready & _ & _).
  pose proof (log_inv_exec d env sched) as Hlog.
  set (s := exec d env sched init) in *.
  unfold run_inv, forwarded in Hrun. rewrite Hr in Hrun.
  destruct Hrun as (_ & (sig' & Hsig' & _ & _ & Hsent) & Hdone).
  assert (sig' = sig) as -> by congruence.
  unfold drv_inv, channels in Hdrv. rewrite Hd in Hdrv.
  destruct Hdrv as (_ & Hchild & _ & _ & [= _ Hpid]).
  split_and!; try done.
  - apply Hready. by rewrite Hr.
  - rewrite Hlog; [|done|by rewrite Hr]. rewrite Hr, Hd. simpl.
    do 4 constructor.
    rewrite <- Permutation_rev. symmetry. apply Permutation_cons_append.
Qed.

Lemma clean_shutdown_outcome_witness :
  log (exec d0 env_clean (round_robin (fuel env_clean)) init)
  ≡ₚ [stopped_entry; started_entry; starting_entry; normal_exit_entry;
      pid_entry env_clean] ++ map logLine (StderrPipe env_clean).1.
Proof.
  assert (clean_shutdown env_clean) as Hc.
  { repeat split. exists SIGTERM. repeat split. }
  destruct (clean_shutdown_outcome d0 env_clean SIGTERM
              (round_robin (fuel env_clean)) Hc eq_refl (exec_rests d0 env_clean))
    as (_ & _ & _ & _ & _ & _ & _ & _ & H).
  exact H.
Defined.

(** X14 (lines 141-156): [Run] does not look at the child before it
    forwards the signal.  When a signal arrives and [os.FindProcess]
    succeeds, every execution at rest in a process still alive has called
    [proc.Signal] exactly once with that signal and the pid of the child,
    also when the goroutine had seen the child exit, and had returned, before
    the signal came. *)
Theorem signal_is_forwarded_regardless (d : Driver) (env : Env) (sig : Signal)
    (sched : list Thread) :
  signals env = Some sig -> FindProcess_err env (Pid env) = None ->
  quiescent d env (exec d env sched init) ->
  halted (exec d env sched init) = false ->
  sent (exec d env sched init) = [(Pid env, sig)] /\
  drv_pc (exec d env sched init) = D_returned.
Proof.
  intros Hsig Hfind Hq Hh.
  pose proof (Inv_exec d env sched) as HI.
  destruct (quiescent_cases _ _ _ HI Hq)
    as [?|(_ & Hd & [[r Hr]|(Hnone & _)])]; [congruence| |congruence].
  split; [|done].
  destruct HI as [Hrun _]. unfold run_inv, forwarded, gave_up in Hrun.
  rewrite Hr in Hrun. destruct r as [e|].
  - destruct Hrun as (_ & sig' & Hsig' & [(? & _)|(_ & _ & Hsent & _)]);
      [congruence|].
    assert (sig' = sig) as -> by congruence. done.
  - destruct Hrun as (_ & (sig' & Hsig' & _ & _ & Hsent) & _).
    assert (sig' = sig) as -> by congruence. done.
Qed.

Lemma signal_is_forwarded_regardless_witness :
  drv_pc (exec d0 env_finished (round_robin 6) init) = D_returned /\
  sent (exec d0 env_finished (round_robin 6) init) = [] /\
  sent (exec d0 env_finished (round_robin (fuel env_finished)) init)
  = [(4242, SIGTERM)].
Proof.
  split; [reflexivity|]. split; [reflexivity|].
  destruct (signal_is_forwarded_regardless d0 env_finished SIGTERM
              (round_robin (fuel env_finished)) eq_refl eq_refl
              (exec_rests d0 env_finished) eq_refl) as (H & _).
  exact H.
Defined.

(* ================================================================== *)
(** * The driver: the error of the pipe *)
(* ================================================================== *)

(** The run of [env_no_pipe] under round robin: the child is started and
    its pid logged and handed to [Run]; then the scanner panics.  The
    line that the child wrote is not in the log, and nothing says why the
    process ended. *)
Example no_pipe_run :
  let s := exec d0 env_no_pipe (round_robin (fuel env_no_pipe)) init in
  halted s = true /\ drv_pc s = D_scan_nil /\
  run_pc s = R_ready 4242 /\ ready_closed s = false /\
  (done_closed s, pid_closed s) = (false, true) /\
  child s = Some (createDriverCmd d0) /\
  history s = [starting_entry; pid_entry env_no_pipe].
Proof. vm_compute. intuition. Qed.

(** When [Run] is scheduled ahead of the panic it announces the start
    and forwards the signal; the process ends all the same, and [Run]
    never returns. *)
Example no_pipe_run_signalled :
  let s := exec d0 env_no_pipe
             ([RunThread; DriverThread; DriverThread; DriverThread]
              ++ repeat RunThread 5 ++ [DriverThread]) init in
  halted s = true /\ drv_pc s = D_scan_nil /\
  run_pc s = R_wait_done /\ sent s = [(4242, SIGTERM)] /\
  map message (history s)
  = ["f5router-driver-starting"; "f5router-driver-process-pid";
     "f5router-driver-started"].
Proof. vm_compute. intuition. Qed.

(** C10: the error of [cmd.StderrPipe()] never reaches a test: line 83
    assigns the result of [cmd.Start()] to the same variable, and at line
    83 the process is ended by a fatal log exactly when [cmd.Start()]
    itself fails.  The child that is started after the creation of the
    pipe failed is not supervised, though.  The reader is nil: the
    goroutine never comes to read a line or to call [cmd.Wait()], [done]
    is never closed and [Run] never returns [nil]; the first
    [scanner.Scan()] panics, and every execution at rest has been ended
    there, with the child recorded, its pid logged, the pid channel closed
    by the deferred call, and no fatal entry in the log. *)
Theorem pipe_failure_panics (d : Driver) (env : Env) (e : error) :
  (StderrPipe env).2 = Some e ->
  (forall s cmd cmdOut pipeErr,
     drv_pc s = D_start cmd cmdOut pipeErr ->
     runBigIPDriver env s =
     match Start env with
     | Some e => logger_Fatal "f5router-driver-failed-start" [ZError e] s
     | None =>
         set_drv (D_send_pid cmdOut)
           (logger_Info "f5router-driver-process-pid" [ZInt "pid" (Pid env)]
              (set_child cmd s))
     end) /\
  (forall sched,
     ~ drv_supervising (drv_pc (exec d env sched init)) /\
     done_closed (exec d env sched init) = false /\
     run_pc (exec d env sched init) <> R_return None) /\
  (Start env = None ->
   (forall sched,
      Forall not_fatal (log (exec d env sched init)) /\
      (quiescent d env (exec d env sched init) ->
       halted (exec d env sched init) = true /\
       drv_pc (exec d env sched init) = D_scan_nil /\
       child (exec d env sched init) = Some (createDriverCmd d) /\
       pid_closed (exec d env sched init) = true /\
       In (pid_entry env) (log (exec d env sched init)))) /\
   halted (exec d env (round_robin (fuel env)) init) = true).
Proof.
  intros Hpipe.
  assert (forall sched, ~ drv_supervising (drv_pc (exec d env sched init)))
    as Hnever.
  { intros sched Hsup. pose proof (pipe_inv_exec d env sched) as Hp.
    unfold pipe_inv in Hp.
    destruct (drv_pc (exec d env sched init)); simpl in Hsup; congruence. }
  split; [|split].
  - intros s cmd cmdOut pipeErr Hpc. unfold runBigIPDriver. by rewrite Hpc.
  - intros sched. specialize (Hnever sched).
    destruct (Inv_exec d env sched) as [_ Hdrv].
    unfold drv_inv, channels in Hdrv.
    assert (done_closed (exec d env sched init) = false) as Hdone.
    { destruct (drv_pc (exec d env sched init)); simpl in Hnever;
        destruct_and?; try tauto;
        match goal with Hc : (_, _) = (_, _) |- _ => by injection Hc end. }
    split_and!; try done.
    intros Hr. apply returned_nil_cause in Hr as ((? & _) & _). congruence.
  - intros Hstart.
    assert (forall sched,
              quiescent d env (exec d env sched init) ->
              halted (exec d env sched init) = true /\
              drv_pc (exec d env sched init) = D_scan_nil) as Hrest.
    { intros sched Hq. specialize (Hnever sched).
      destruct (quiescent_cases _ _ _ (Inv_exec d env sched) Hq)
        as [Hh|(_ & Hd & _)]; [|by rewrite Hd in Hnever].
      split; [done|].
      destruct (Inv_exec d env sched) as [_ Hdrv]. unfold drv_inv in Hdrv.
      destruct (drv_pc (exec d env sched init)); simpl in Hnever;
        destruct_and?; try congruence; try tauto.
      match goal with H : _ = true -> exists _, _ |- _ =>
        destruct (H Hh) as (? & ? & _) end. congruence. }
    split; [|apply Hrest, exec_rests].
    intros sched. split.
    + pose proof (fatal_inv_exec d env sched) as Hf. unfold fatal_inv in Hf.
      destruct (halted (exec d env sched init)) eqn:Hh; [|done].
      destruct Hf as [[_ Hf]|[Hpc _]]; [done|].
      exfalso. specialize (Hnever sched).
      destruct (Inv_exec d env sched) as [_ Hdrv]. unfold drv_inv in Hdrv.
      destruct (drv_pc (exec d env sched init)); simpl in Hnever;
        destruct_and?; try congruence; try tauto.
      match goal with H : _ = true -> exists _, _ |- _ =>
        destruct (H Hh) as (? & ? & _) end. congruence.
    + intros Hq. destruct (Hrest sched Hq) as [Hh Hpc].
      destruct (Inv_exec d env sched) as [_ Hdrv].
      destruct (trace_inv_exec d env sched) as (_ & Hpid & _).
      unfold drv_inv, channels in Hdrv. rewrite Hpc in Hdrv, Hpid.
      destruct Hdrv as (_ & Hchild & [= _ Hclosed]).
      split_and!; try done.
      * by rewrite Hclosed.
      * by apply Hpid.
Qed.

Lemma pipe_failure_panics_witness :
  (StderrPipe env_no_pipe).2 = Some "pipe: too many open files" /\
  Start env_no_pipe = None /\
  halted (exec d0 env_no_pipe (round_robin (fuel env_no_pipe)) init) = true /\
  drv_pc (exec d0 env_no_pipe (round_robin (fuel env_no_pipe)) init) = D_scan_nil /\
  child (exec d0 env_no_pipe (round_robin (fuel env_no_pipe)) init)
  = Some (createDriverCmd d0) /\
  Forall not_fatal (log (exec d0 env_no_pipe (round_robin (fuel env_no_pipe)) init)) /\
  done_closed (exec d0 env_no_pipe (round_robin (fuel env_no_pipe)) init) = false.
Proof.
  destruct (pipe_failure_panics d0 env_no_pipe "pipe: too many open files" eq_refl)
    as (_ & Hall & Hpanic).
  destruct (Hpanic eq_refl) as (Hlog & _).
  destruct (Hlog (round_robin (fuel env_no_pipe))) as (Hnf & Hrest).
  destruct (Hrest (exec_rests d0 env_no_pipe)) as (Hh & Hpc & Hchild & _).
  destruct (Hall (round_robin (fuel env_no_pipe))) as (_ & Hdone & _).
  split_and!; try reflexivity; assumption.
Defined.
